(** * tiny-morse-decoder: a shallow embedding of [tiny-morse-decoder.c]

    The firmware is a polling pipeline
    [get_edge] -> [tokenize] -> [decode] -> [uart_putchar],
    clocked by a 16-bit tic counter.  Every C function is embedded as a
    function on explicit state: the [static] variables of a function become
    a record that is passed in and returned, and a call to [tics()] becomes
    the argument [now].  Machine integers are [Z] with the wrap-around
    written out. *)

From Stdlib Require Import ZArith List Lia Bool QArith Qround Ascii.
From Stdlib Require String.
Import ListNotations String.StringSyntax.
Local Open Scope string_scope.
Local Open Scope Z_scope.

(** ** Machine integers (AVR: [int] is 16 bits wide) *)

(** Conversion to [uint16_t]. *)
Definition uint16 (z : Z) : Z := z mod 65536.

(** Conversion to [uint8_t]. *)
Definition uint8 (z : Z) : Z := z mod 256.

(** Conversion to [int16_t]: the two's complement reading of the low 16 bits. *)
Definition int16 (z : Z) : Z :=
  let u := z mod 65536 in
  if u <? 32768 then u else u - 65536.

(** A [char] is represented by its ASCII code. *)
Definition chr (a : ascii) : Z := Z.of_N (N_of_ascii a).

(** ** Timekeeping *)

Module Clock.

(** [ISR(TIM0_COMPA_vect)]: [system_tics++] on a [uint16_t]. *)
Definition TIM0_COMPA_vect (system_tics : Z) : Z := uint16 (system_tics + 1).

(** The counter after [n] tic interrupts. *)
Fixpoint run_tics (n : nat) (system_tics : Z) : Z :=
  match n with
  | O => system_tics
  | S n' => run_tics n' (TIM0_COMPA_vect system_tics)
  end.

(** [expired]: [(int16_t) (now - timeout) >= 0]; the subtraction is done on
    [uint16_t] operands, hence modulo 2^16. *)
Definition expired (now timeout : Z) : bool :=
  0 <=? int16 (uint16 (now - timeout)).

End Clock.
Export Clock.

(** ** Timing constants

    The macros [TIMER_TOP], [TIC_FREQ], [DOT_TIME] and [DEBOUNCE_TIME] are
    constant expressions in floating point, folded by the compiler.  They
    are embedded in exact rational arithmetic; a cast to an integer type
    truncates.  Where the exact value is an integer (the four dot times at
    9.6 MHz) the folded constant can be one less; [rounds_to] below allows
    for it. *)

Inductive mcu : Type := ATtiny13A | ATtinyX5.

Definition F_CPU (m : mcu) : Z :=
  match m with
  | ATtinyX5 => 8000000
  | ATtiny13A => 9600000
  end.

Definition BAUD_RATE : Z := 9600.

Definition KEY_RATE_0 : Z := 5.
Definition KEY_RATE_1 : Z := 8.
Definition KEY_RATE_2 : Z := 12.
Definition KEY_RATE_3 : Z := 18.

Definition TIMER_TOP (m : mcu) : Z :=
  Qfloor (inject_Z (F_CPU m) / 8 / inject_Z BAUD_RATE + (1 # 2))%Q - 1.

Definition TIC_FREQ (m : mcu) : Q :=
  (inject_Z (F_CPU m) / 8 / inject_Z (TIMER_TOP m + 1))%Q.

Definition DOT_TIME (m : mcu) (rate : Z) : Z :=
  uint16 (Qfloor ((12 # 10) / inject_Z rate * TIC_FREQ m)%Q).

Definition DEBOUNCE_TIME (m : mcu) : Z :=
  uint16 (Qfloor ((1 # 100) * TIC_FREQ m + (1 # 2))%Q).

(** ** Keying speed selection *)

Definition dot_times (m : mcu) : list Z :=
  [ DOT_TIME m KEY_RATE_3; DOT_TIME m KEY_RATE_2;
    DOT_TIME m KEY_RATE_1; DOT_TIME m KEY_RATE_0 ].

(** The globals [delay_1u], [delay_2u], [delay_3u]. *)
Record delays : Type := mk_delays {
  delay_1u : Z;
  delay_2u : Z;
  delay_3u : Z
}.

(** [set_delays], reading the table [tbl] at [PINB & 0x03]; the sums are
    [uint16_t] additions. *)
Definition set_delays (tbl : list Z) (PINB : Z) : delays :=
  let speed := Z.land PINB 3 in
  let d1 := nth (Z.to_nat speed) tbl 0 in
  let d2 := uint16 (d1 + d1) in
  let d3 := uint16 (d2 + d1) in
  mk_delays d1 d2 d3.

(** The delays for a dot of [u] tics. *)
Definition delays_of_dot (u : Z) : delays := set_delays [u] 0.

(** ** Edge detector *)

Inductive edge_t : Type := NO_EDGE | RISE | FALL.

Module EdgeDetector.

Inductive state_t : Type := UP | DOWN | BOUNCING.

(** The [static] variables of [get_edge], and the LED bit of [PORTB]. *)
Record t : Type := mk {
  state : state_t;
  timeout : Z;
  led : bool
}.

(** Zero-initialised statics; the LED is off when the main loop starts. *)
Definition init : t := mk UP 0 false.

(** [get_edge], for the clock reading [now] and the key reading [key_down]. *)
Definition get_edge (m : mcu) (now : Z) (key_down : bool) (s : t) : edge_t * t :=
  match state s with
  | UP =>
      if key_down then (FALL, mk DOWN (timeout s) true)
      else (NO_EDGE, s)
  | DOWN =>
      if negb key_down
      then (NO_EDGE, mk BOUNCING (uint16 (now + DEBOUNCE_TIME m)) (led s))
      else (NO_EDGE, s)
  | BOUNCING =>
      if key_down then (NO_EDGE, mk DOWN (timeout s) (led s))
      else if expired now (timeout s) then (RISE, mk UP (timeout s) false)
      else (NO_EDGE, s)
  end.

(** Successive calls, one per poll [(now, key_down)]. *)
Fixpoint run (m : mcu) (polls : list (Z * bool)) (s : t) : list edge_t * t :=
  match polls with
  | [] => ([], s)
  | (now, k) :: rest =>
      let (e, s1) := get_edge m now k s in
      let (es, s2) := run m rest s1 in
      (e :: es, s2)
  end.

End EdgeDetector.

(** ** Tokenizer *)

Inductive symbol_t : Type := NO_SYMBOL | DOT | DASH | END_OF_CHAR | END_OF_WORD.

Definition symbol_eqb (a b : symbol_t) : bool :=
  match a, b with
  | NO_SYMBOL, NO_SYMBOL | DOT, DOT | DASH, DASH
  | END_OF_CHAR, END_OF_CHAR | END_OF_WORD, END_OF_WORD => true
  | _, _ => false
  end.

Module Tokenizer.

Inductive state_t : Type := INTERWORD | SHORT | LONG | INTERELEMENT | INTERCHARACTER.

(** The [static] variables of [tokenize]. *)
Record t : Type := mk {
  state : state_t;
  timeout : Z
}.

Definition init : t := mk INTERWORD 0.

(** [tokenize], for the clock reading [now]. *)
Definition tokenize (d : delays) (now : Z) (edge : edge_t) (s : t) : symbol_t * t :=
  match state s with
  | INTERWORD =>
      match edge with
      | FALL => (NO_SYMBOL, mk SHORT (uint16 (now + delay_2u d)))
      | _ => (NO_SYMBOL, s)
      end
  | SHORT =>
      match edge with
      | RISE => (DOT, mk INTERELEMENT (uint16 (now + delay_2u d)))
      | _ =>
          if expired now (timeout s) then (NO_SYMBOL, mk LONG (timeout s))
          else (NO_SYMBOL, s)
      end
  | LONG =>
      match edge with
      | RISE => (DASH, mk INTERELEMENT (uint16 (now + delay_2u d)))
      | _ => (NO_SYMBOL, s)
      end
  | INTERELEMENT =>
      match edge with
      | FALL => (NO_SYMBOL, mk SHORT (uint16 (now + delay_2u d)))
      | _ =>
          if expired now (timeout s)
          then (END_OF_CHAR, mk INTERCHARACTER (uint16 (now + delay_3u d)))
          else (NO_SYMBOL, s)
      end
  | INTERCHARACTER =>
      match edge with
      | FALL => (NO_SYMBOL, mk SHORT (uint16 (now + delay_2u d)))
      | _ =>
          if expired now (timeout s) then (END_OF_WORD, mk INTERWORD (timeout s))
          else (NO_SYMBOL, s)
      end
  end.

(** Successive calls, one per poll [(edge, now)]. *)
Fixpoint run (d : delays) (polls : list (edge_t * Z)) (s : t) : list symbol_t * t :=
  match polls with
  | [] => ([], s)
  | (e, now) :: rest =>
      let (y, s1) := tokenize d now e s in
      let (ys, s2) := run d rest s1 in
      (y :: ys, s2)
  end.

(** The symbols of a run, [NO_SYMBOL] results dropped. *)
Definition emitted (ys : list symbol_t) : list symbol_t :=
  filter (fun y => negb (symbol_eqb y NO_SYMBOL)) ys.

(** What a run emits, and the state it ends in. *)
Definition outcome (d : delays) (polls : list (edge_t * Z)) (s : t)
  : list symbol_t * t :=
  let r := run d polls s in (emitted (fst r), snd r).

(** [n] polls without an edge, one per tic: the clock, read as [now] at the
    last poll, is advanced by [TIM0_COMPA_vect] before each of them. *)
Fixpoint idle (now : Z) (n : nat) : list (edge_t * Z) :=
  match n with
  | O => []
  | S n' =>
      let now' := TIM0_COMPA_vect now in
      (NO_EDGE, now') :: idle now' n'
  end.

(** A mark of [d] tics as the tokenizer sees it: the falling edge at tic
    [now], no edge at the next [d - 1] tics, the rising edge [d] tics after
    the falling one. *)
Definition mark (now d : Z) : list (edge_t * Z) :=
  (FALL, now) :: idle now (Z.to_nat (d - 1)) ++ [(RISE, run_tics (Z.to_nat d) now)].

(** A gap of [g] tics after the rising edge polled at tic [now]: no edge at
    the next [g - 1] tics, the falling edge [g] tics after the rising one. *)
Definition gap (now g : Z) : list (edge_t * Z) :=
  idle now (Z.to_nat (g - 1)) ++ [(FALL, run_tics (Z.to_nat g) now)].

(** The state [tokenize] is left in by a rising edge polled at tic [now]. *)
Definition after_mark (d : delays) (now : Z) : t :=
  mk INTERELEMENT (uint16 (now + delay_2u d)).

End Tokenizer.

(** ** Decoder *)

Definition CODE_LENGTH : Z := 59.

Definition morse_code : list Z :=
  [ 363; 694; 221;   0; 375;   0;  61; 853; 214; 726;   0; 109;
    698; 190; 365; 110; 682; 341; 171;  87;  47;  31;  62; 122;
    234; 426; 490; 438;   0;  94;   0; 235; 437;   5;  30;  54;
     14;   1;  27;  26;  15;   3;  85;  22;  29;  10;   6;  42;
     53;  90;  13;   7;   2;  11;  23;  21;  46;  86;  58 ].

Module Decoder.

(** The search loop of [code_to_char], entered with index [i] and
    [CODE_LENGTH - i] iterations left: the index at which it stops. *)
Fixpoint lookup (left : nat) (i : Z) (code : Z) : Z :=
  match left with
  | O => i
  | S left' =>
      if nth (Z.to_nat i) morse_code 0 =? code then i
      else lookup left' (i + 1) code
  end.

Definition code_to_char (code : Z) : Z :=
  let i := lookup (Z.to_nat CODE_LENGTH) 0 code in
  if i =? 0 then chr "_"
  else if i <? CODE_LENGTH then chr " " + i
  else chr "#".

(** The [static] variables of [decode]. *)
Record t : Type := mk {
  code : Z;
  bitmask : Z
}.

Definition init : t := mk 0 1.

(** [bitmask <<= 1] on a [uint16_t]. *)
Definition shl1 (bitmask : Z) : Z := uint16 (Z.shiftl bitmask 1).

(** [decode]; the result 0 stands for "not a full character yet". *)
Definition decode (symbol : symbol_t) (s : t) : Z * t :=
  match symbol with
  | NO_SYMBOL => (0, s)
  | DASH =>
      let bm := shl1 (bitmask s) in
      (0, mk (Z.lor (code s) bm) (shl1 bm))
  | DOT => (0, mk (Z.lor (code s) (bitmask s)) (shl1 (bitmask s)))
  | END_OF_CHAR => (code_to_char (code s), init)
  | END_OF_WORD => (chr " ", s)
  end.

(** Successive calls, one per symbol. *)
Fixpoint run (symbols : list symbol_t) (s : t) : list Z * t :=
  match symbols with
  | [] => ([], s)
  | y :: rest =>
      let (c, s1) := decode y s in
      let (cs, s2) := run rest s1 in
      (c :: cs, s2)
  end.

End Decoder.

(** ** The table generator, [tools/make-code-table.c]

    The generator turns the dot/dash string of each character into its code
    number and prints the numbers in ASCII order; [morse_code] above is its
    output. *)

Module MakeCodeTable.

(** Conversion to [unsigned int] of the build host (32 bits). *)
Definition uint (z : Z) : Z := z mod 4294967296.

Definition UINT16_MAX : Z := 65535.

(** The translation loop over the string [s], entered with [code] and
    [bitmask]; [None] stands for [EXIT_FAILURE]. *)
Fixpoint translate (s : String.string) (code bitmask : Z) : option Z :=
  match s with
  | String.EmptyString => if code >? UINT16_MAX then None else Some code
  | String.String p rest =>
      let shifted :=
        if Ascii.eqb p "-" then Some (uint (Z.shiftl bitmask 1))
        else if negb (Ascii.eqb p ".") then None
        else Some bitmask in
      match shifted with
      | None => None
      | Some bitmask =>
          translate rest (Z.lor code bitmask) (uint (Z.shiftl bitmask 1))
      end
  end.

(** The character whose code number is printed at index [i]:
    [i==0 ? '_' : ' ' + i]. *)
Definition table_char (i : Z) : Z :=
  if i =? 0 then chr "_" else chr " " + i.

End MakeCodeTable.

(** The symbols the tokenizer delivers for a character keyed as the dot/dash
    string [s]. *)
Fixpoint keyed (s : String.string) : list symbol_t :=
  match s with
  | String.EmptyString => []
  | String.String p rest => (if Ascii.eqb p "-" then DASH else DOT) :: keyed rest
  end.

(** The dot/dash string of a code number, read off its bits from the least
    significant one: a 1 is a dot, a 0 and the 1 above it are a dash. *)
Fixpoint dots_and_dashes (bits : nat) (code : Z) : String.string :=
  match bits with
  | O => String.EmptyString
  | S bits' =>
      if code =? 0 then String.EmptyString
      else if Z.odd code then String.String "." (dots_and_dashes bits' (Z.shiftr code 1))
      else String.String "-" (dots_and_dashes bits' (Z.shiftr code 2))
  end.

(** ** Software UART transmitter *)

Module Uart.

(** [uart_shift_register], the interrupt enable bit [OCIE0B] of [TIMSK0],
    and the level of [TX_PIN] in [PORTB]. *)
Record t : Type := mk {
  uart_shift_register : Z;
  OCIE0B : bool;
  TX_PIN : bool
}.

(** After [init_uart]: the line idles high; the interrupt is off. *)
Definition init : t := mk 0 false true.

(** [ISR(TIM0_COMPB_vect)]. *)
Definition TIM0_COMPB_vect (s : t) : t :=
  let shift_register := uart_shift_register s in
  let tx := negb (Z.land shift_register 1 =? 0) in
  let shift_register := int16 (Z.shiftr shift_register 1) in
  let ocie0b := if uint8 shift_register =? 0 then false else OCIE0B s in
  mk shift_register ocie0b tx.

(** One compare match B: the routine runs only while its interrupt is
    enabled. *)
Definition tick (s : t) : t :=
  if OCIE0B s then TIM0_COMPB_vect s else s.

(** [uart_putchar]. *)
Definition uart_putchar (c : Z) (s : t) : t :=
  mk (int16 (Z.shiftl (Z.lor 256 (uint8 c)) 1)) true (TX_PIN s).

(** The line level after each of the next [n] compare matches, and the
    state they leave. *)
Fixpoint line (n : nat) (s : t) : list bool * t :=
  match n with
  | O => ([], s)
  | S n' =>
      let s1 := tick s in
      let (bs, s2) := line n' s1 in
      (TX_PIN s1 :: bs, s2)
  end.

(** The interrupt enable bit after each of the next [n] compare matches. *)
Fixpoint enabled (n : nat) (s : t) : list bool :=
  match n with
  | O => []
  | S n' => let s1 := tick s in OCIE0B s1 :: enabled n' s1
  end.

(** The bits of a byte, least significant first. *)
Definition bits_lsb_first (c : Z) : list bool :=
  map (fun i => Z.testbit c (Z.of_nat i)) (seq 0 8).

(** Equality test on line traces. *)
Fixpoint bits_eqb (a b : list bool) : bool :=
  match a, b with
  | [], [] => true
  | x :: a', y :: b' => Bool.eqb x y && bits_eqb a' b'
  | _, _ => false
  end.

(** The frame test: the ten compare matches after [uart_putchar c] send
    start bit, data bits and stop bit, and only the tenth disables the
    interrupt. *)
Definition frame_ok (c : Z) : bool :=
  let s0 := uart_putchar c init in
  bits_eqb (fst (line 10 s0)) (false :: bits_lsb_first c ++ [true])
  && bits_eqb (enabled 10 s0) (repeat true 9 ++ [false]).

End Uart.

(** ** The tokenizer feeding the decoder

    The part of the main loop after [get_edge]:
    [sym = tokenize(edge); c = decode(sym);]. *)

Module Pipeline.

(** What one pass leaves in the log: the symbol, the value of [code] when
    [decode] was entered, and the character returned. *)
Record pass : Type := mk_pass {
  symbol : symbol_t;
  code_in : Z;
  char_out : Z
}.

Definition step (d : delays) (poll : edge_t * Z) (s : Tokenizer.t * Decoder.t)
  : pass * (Tokenizer.t * Decoder.t) :=
  let (y, tk) := Tokenizer.tokenize d (snd poll) (fst poll) (fst s) in
  let (c, dc) := Decoder.decode y (snd s) in
  (mk_pass y (Decoder.code (snd s)) c, (tk, dc)).

Fixpoint run (d : delays) (polls : list (edge_t * Z)) (s : Tokenizer.t * Decoder.t)
  : list pass :=
  match polls with
  | [] => []
  | poll :: rest => let (p, s1) := step d poll s in p :: run d rest s1
  end.

(** The flag [seen] after a symbol. *)
Definition seen_after (seen : bool) (y : symbol_t) : bool :=
  match y with
  | DOT | DASH => true
  | END_OF_CHAR => false
  | _ => seen
  end.

(** The scan of a symbol stream for an [END_OF_CHAR] with no [DOT] or
    [DASH] since the previous one; [seen] tells whether a mark has been seen
    since then. *)
Fixpoint marks_before_end_of_char (seen : bool) (ys : list symbol_t) : bool :=
  match ys with
  | [] => true
  | DOT :: rest | DASH :: rest => marks_before_end_of_char true rest
  | END_OF_CHAR :: rest => seen && marks_before_end_of_char false rest
  | _ :: rest => marks_before_end_of_char seen rest
  end.

End Pipeline.

(** What links the two machines: [INTERELEMENT] is entered by a mark only;
    after a mark the code number is nonzero; a zero code number comes with
    the initial bit mask. *)
Definition linked (seen : bool) (s : Tokenizer.t * Decoder.t) : Prop :=
  (Tokenizer.state (fst s) = Tokenizer.INTERELEMENT -> seen = true) /\
  (seen = true -> Decoder.code (snd s) <> 0) /\
  (Decoder.code (snd s) = 0 -> Decoder.bitmask (snd s) = 1).

(** The table test: an entry is 0, or a 16-bit number that [code_to_char]
    maps to the character of its index. *)
Definition entry_ok (i : nat) : bool :=
  let n := nth i morse_code 0 in
  (n =? 0) || ((0 <? n) && (n <? 65536)
               && (Decoder.code_to_char n =? MakeCodeTable.table_char (Z.of_nat i))
               && match MakeCodeTable.translate (dots_and_dashes 16 n) 0 1 with
                  | Some n' => n' =? n
                  | None => false
                  end).

(** ** Rounding of the dot times

    The products in [DOT_TIME] are floating-point constants; the table the
    compiler emits may differ from the exact quotient by one tic. *)
Definition rounds_to (exact d : Z) : Prop := exact - 1 <= d <= exact + 1.

(** ** Blocking delay *)

Module Delay.

(** The loop [while (!expired(tics(), timeout)) ;] of [delay], entered with
    the clock at [now]; the clock is advanced by [TIM0_COMPA_vect] while the
    loop spins.  The result is the number of tics spent in the loop and the
    clock on return; [None] when [fuel] tics do not suffice. *)
Fixpoint wait (fuel : nat) (now timeout : Z) : option (nat * Z) :=
  match fuel with
  | O => None
  | S fuel' =>
      if expired now timeout then Some (O, now)
      else
        match wait fuel' (TIM0_COMPA_vect now) timeout with
        | Some (n, t) => Some (S n, t)
        | None => None
        end
  end.

(** [delay]: [timeout = tics() + tick_count], then the loop. *)
Definition delay (fuel : nat) (now tick_count : Z) : option (nat * Z) :=
  wait fuel now (uint16 (now + tick_count)).

End Delay.

(** ** Key readings *)

Module Keying.

(** [n] polls of [get_edge] that all read the key as [k], one per tic after
    the poll at clock [now]. *)
Fixpoint steady (k : bool) (now : Z) (n : nat) : list (Z * bool) :=
  match n with
  | O => []
  | S n' =>
      let now' := TIM0_COMPA_vect now in
      (now', k) :: steady k now' n'
  end.

(** The scan of an edge stream for two [FALL] or two [RISE] in a row;
    [expect_fall] tells which edge may come next. *)
Fixpoint alternating (expect_fall : bool) (es : list edge_t) : bool :=
  match es with
  | [] => true
  | NO_EDGE :: rest => alternating expect_fall rest
  | FALL :: rest => expect_fall && alternating false rest
  | RISE :: rest => negb expect_fall && alternating true rest
  end.

Definition is_up (s : EdgeDetector.state_t) : bool :=
  match s with
  | EdgeDetector.UP => true
  | _ => false
  end.

End Keying.

(** ** The main loop *)

Module Main.

(** Bit number of the key input, [PB4]. *)
Definition KEY_PIN : Z := 4.

(** [key_down]: [(PINB & _BV(KEY_PIN)) == 0]. *)
Definition key_down (PINB : Z) : bool :=
  Z.land PINB (Z.shiftl 1 KEY_PIN) =? 0.

(** The state the loop works on. *)
Record t : Type := mk {
  edge_detector : EdgeDetector.t;
  tokenizer : Tokenizer.t;
  decoder : Decoder.t;
  uart : Uart.t
}.

(** The state after the initialisations of [main]. *)
Definition init : t :=
  mk EdgeDetector.init Tokenizer.init Decoder.init Uart.init.

(** What one pass of the loop reads: the port once, the clock in
    [get_edge] and again in [tokenize]. *)
Record reading : Type := mk_reading {
  PINB : Z;
  tics_get_edge : Z;
  tics_tokenize : Z
}.

(** The three local variables of a pass. *)
Record pass : Type := mk_pass {
  edge : edge_t;
  sym : symbol_t;
  c : Z
}.

(** The body of [for (;;)]. *)
Definition loop_body (m : mcu) (d : delays) (r : reading) (s : t) : pass * t :=
  let (e, es) := EdgeDetector.get_edge m (tics_get_edge r) (key_down (PINB r))
                   (edge_detector s) in
  let (y, ts) := Tokenizer.tokenize d (tics_tokenize r) e (tokenizer s) in
  let (ch, ds) := Decoder.decode y (decoder s) in
  let us := if ch =? 0 then uart s else Uart.uart_putchar ch (uart s) in
  (mk_pass e y ch, mk es ts ds us).

Fixpoint run (m : mcu) (d : delays) (rs : list reading) (s : t) : list pass * t :=
  match rs with
  | [] => ([], s)
  | r :: rest =>
      let (p, s1) := loop_body m d r s in
      let (ps, s2) := run m d rest s1 in
      (p :: ps, s2)
  end.

(** The port with both speed pins floating and the key closed ([k]) or
    open. *)
Definition port (k : bool) : Z := if k then 3 else 19.

(** A pass that reads the same clock value in [get_edge] and [tokenize]. *)
Definition read (p : Z * bool) : reading :=
  mk_reading (port (snd p)) (fst p) (fst p).

(** A key press polled once per tic: closed at clock [now] and at the next
    [D - 1] tics, then open until the debounce time has run out. *)
Definition press (m : mcu) (now D : Z) : list reading :=
  map read
      ((now, true) :: Keying.steady true now (Z.to_nat (D - 1))
         ++ Keying.steady false (run_tics (Z.to_nat (D - 1)) now)
              (S (Z.to_nat (DEBOUNCE_TIME m)))).

Definition is_gap (s : Tokenizer.state_t) : bool :=
  match s with
  | Tokenizer.SHORT | Tokenizer.LONG => false
  | _ => true
  end.

Definition is_mark (y : symbol_t) : bool :=
  match y with
  | DOT | DASH => true
  | _ => false
  end.

(** The scan of a symbol stream for an [END_OF_CHAR] that does not follow
    a mark or an [END_OF_WORD] that does not follow an [END_OF_CHAR];
    [prev] is the last symbol seen. *)
Fixpoint well_formed (prev : symbol_t) (ys : list symbol_t) : bool :=
  match ys with
  | [] => true
  | NO_SYMBOL :: rest => well_formed prev rest
  | END_OF_CHAR :: rest => is_mark prev && well_formed END_OF_CHAR rest
  | END_OF_WORD :: rest => symbol_eqb prev END_OF_CHAR && well_formed END_OF_WORD rest
  | y :: rest => well_formed y rest
  end.

End Main.

(** ** Bit positions

    The number of bit positions a symbol stream takes in the code number:
    one for a dot, two for a dash. *)
Fixpoint bit_count (ys : list symbol_t) : Z :=
  match ys with
  | [] => 0
  | DOT :: rest => 1 + bit_count rest
  | DASH :: rest => 2 + bit_count rest
  | _ :: rest => bit_count rest
  end.

(** ** Dot/dash strings *)

(** Whether a string holds dots and dashes only. *)
Fixpoint dots_dashes_only (s : String.string) : bool :=
  match s with
  | String.EmptyString => true
  | String.String p rest =>
      (Ascii.eqb p "-" || Ascii.eqb p ".") && dots_dashes_only rest
  end.

(** The code number of a dot/dash string as an integer of any size: the
    bit stream [1] per dot and [0, 1] per dash, least significant bit
    first. *)
Fixpoint code_number (s : String.string) : Z :=
  match s with
  | String.EmptyString => 0
  | String.String p rest =>
      if Ascii.eqb p "-" then 2 + 4 * code_number rest
      else 1 + 2 * code_number rest
  end.

(** ** Invitation to transmit *)

Module Invite.

(** What [invite] does to the outside: it switches the LED and it waits in
    [delay]. *)
Inductive event : Type :=
| LED (on : bool)
| DELAY (tick_count : Z).

(** The loop [while (code)] of [invite] on the [uint8_t] variable [code];
    [None] when [fuel] iterations do not suffice. *)
Fixpoint play (fuel : nat) (d : delays) (code : Z) : option (list event) :=
  match fuel with
  | O => None
  | S fuel' =>
      if code =? 0 then Some []
      else
        let dash := Z.land code 1 =? 0 in
        let code1 := if dash then uint8 (Z.shiftr code 1) else code in
        let code2 := uint8 (Z.shiftr code1 1) in
        match play fuel' d code2 with
        | None => None
        | Some rest =>
            Some (LED true
                    :: (if dash then [DELAY (delay_2u d)] else [])
                    ++ DELAY (delay_1u d) :: LED false :: DELAY (delay_1u d) :: rest)
        end
  end.

(** [invite]: the loop on [code = 22]. *)
Definition invite (fuel : nat) (d : delays) : option (list event) :=
  play fuel d 22.

(** A dot/dash string as a light signal: on for one unit per dot and for
    two plus one units per dash, off for one unit after each. *)
Fixpoint signal (d : delays) (s : String.string) : list event :=
  match s with
  | String.EmptyString => []
  | String.String p rest =>
      LED true
        :: (if Ascii.eqb p "-" then [DELAY (delay_2u d)] else [])
        ++ DELAY (delay_1u d) :: LED false :: DELAY (delay_1u d) :: signal d rest
  end.

End Invite.

(** ** Keying a character *)

Module Keyer.

(** The polls of one key press, as in [Main.press]. *)
Definition press_polls (m : mcu) (now D : Z) : list (Z * bool) :=
  (now, true) :: Keying.steady true now (Z.to_nat (D - 1))
    ++ Keying.steady false (run_tics (Z.to_nat (D - 1)) now)
         (S (Z.to_nat (DEBOUNCE_TIME m))).

(** The clock at the last poll of a press begun at clock [now]. *)
Definition press_end (m : mcu) (now D : Z) : Z :=
  run_tics (Z.to_nat (D + DEBOUNCE_TIME m)) now.

(** A character keyed as a list of [(E, D)]: for each mark the key stays
    open for [E] more polls, then is closed for [D] tics and released, the
    polls running on until the debounce time is over.  The clock is [now] at
    the poll before the first of these. *)
Fixpoint keying (m : mcu) (now : Z) (ks : list (nat * Z)) : list (Z * bool) :=
  match ks with
  | [] => []
  | (E, D) :: rest =>
      Keying.steady false now E
        ++ press_polls m (run_tics (S E) now) D
        ++ keying m (press_end m (run_tics (S E) now) D) rest
  end.

(** The clock at the last poll of [keying]. *)
Fixpoint keying_end (m : mcu) (now : Z) (ks : list (nat * Z)) : Z :=
  match ks with
  | [] => now
  | (E, D) :: rest => keying_end m (press_end m (run_tics (S E) now) D) rest
  end.

(** What the tokenizer is polled with during [keying]. *)
Fixpoint marks (m : mcu) (now : Z) (ks : list (nat * Z)) : list (edge_t * Z) :=
  match ks with
  | [] => []
  | (E, D) :: rest =>
      Tokenizer.idle now E
        ++ Tokenizer.mark (run_tics (S E) now) (D + DEBOUNCE_TIME m)
        ++ marks m (press_end m (run_tics (S E) now) D) rest
  end.

(** The timing that makes a press the mark [y] at a dot time of [u] tics:
    the pause before it shorter than two units, the press with the debounce
    time at most two units for a dot and more for a dash. *)
Definition timed (m : mcu) (u : Z) (y : symbol_t) (k : nat * Z) : Prop :=
  Z.of_nat (fst k) < 2 * u /\ 1 <= snd k /\
  (y = DASH -> 2 * u < snd k + DEBOUNCE_TIME m) /\
  (y <> DASH -> snd k + DEBOUNCE_TIME m <= 2 * u).

(** The characters handed to [uart_putchar]. *)
Definition sent (ps : list Main.pass) : list Z :=
  filter (fun ch => negb (ch =? 0)) (map Main.c ps).

End Keyer.

(** * Properties *)

(** ** Machine arithmetic *)

Lemma uint16_range (z : Z) : 0 <= uint16 z < 65536.
Proof. unfold uint16. apply Z.mod_pos_bound. lia. Qed.

Lemma uint16_small (z : Z) : 0 <= z < 65536 -> uint16 z = z.
Proof. intros H. unfold uint16. now apply Z.mod_small. Qed.

Lemma uint16_add_l (a b : Z) : uint16 (uint16 a + b) = uint16 (a + b).
Proof. unfold uint16. now rewrite Zplus_mod_idemp_l. Qed.

Lemma int16_nonneg_iff (z : Z) : 0 <= int16 z <-> uint16 z < 32768.
Proof.
  unfold int16, uint16.
  pose proof (Z.mod_pos_bound z 65536 ltac:(lia)).
  destruct (Z.ltb_spec (z mod 65536) 32768); lia.
Qed.

(** ** Timekeeping *)

Lemma TIM0_COMPA_vect_offset (t k : Z) :
  TIM0_COMPA_vect (uint16 (t + k)) = uint16 (t + (k + 1)).
Proof.
  unfold TIM0_COMPA_vect. rewrite uint16_add_l. f_equal. lia.
Qed.

Lemma run_tics_offset (n : nat) (t k : Z) :
  run_tics n (uint16 (t + k)) = uint16 (t + (k + Z.of_nat n)).
Proof.
  revert k. induction n as [|n IH]; intros k.
  - simpl. f_equal. lia.
  - cbn [run_tics]. rewrite TIM0_COMPA_vect_offset, IH. f_equal. lia.
Qed.

Lemma run_tics_spec (n : nat) (t : Z) :
  0 <= t < 65536 -> run_tics n t = uint16 (t + Z.of_nat n).
Proof.
  intros Ht. rewrite <- (uint16_small t Ht) at 1.
  replace (uint16 t) with (uint16 (t + 0)) by (f_equal; lia).
  now rewrite run_tics_offset.
Qed.

(** [expired] on two readings of the wrapping clock, [a] and [b] tics after
    a common origin: it compares [a] and [b] as long as they are less than
    half a turn apart. *)
Lemma expired_offsets (t a b : Z) :
  -32768 <= a - b <= 32767 ->
  expired (uint16 (t + a)) (uint16 (t + b)) = (b <=? a).
Proof.
  intros H. unfold expired.
  assert (E : uint16 (uint16 (t + a) - uint16 (t + b)) = uint16 (a - b)).
  { unfold uint16. rewrite <- Zminus_mod. f_equal. lia. }
  rewrite E. clear E.
  destruct (Z.leb_spec b a) as [Hba|Hba].
  - apply Z.leb_le. apply int16_nonneg_iff.
    rewrite !uint16_small; try lia. apply uint16_range.
  - apply Z.leb_gt.
    assert (E : uint16 (a - b) = a - b + 65536).
    { unfold uint16. symmetry. apply (Z.mod_unique _ _ (-1)); lia. }
    unfold int16. fold (uint16 (uint16 (a - b))).
    rewrite E, uint16_small by lia.
    destruct (Z.ltb_spec (a - b + 65536) 32768); lia.
Qed.

(** C3, the claim fails where the two readings are exactly half a turn
    apart: [(int16_t) (now - timeout)] is then -32768 and [expired] answers
    [false], while the signed difference [deadline - now] is -32768 <= 0. *)
Lemma expired_half_turn :
  ~ (expired 0 32768 = true <-> int16 (32768 - 0) <= 0).
Proof.
  intros [_ H].
  assert (E : expired 0 32768 = true) by (apply H; vm_compute; discriminate).
  vm_compute in E. discriminate E.
Qed.

(** C3 (amended): for 16-bit [now] and [deadline], [expired now deadline]
    holds iff [now - deadline] is non-negative as a signed 16-bit number;
    this is the same as [deadline - now <= 0] on signed 16-bit numbers
    unless the two are exactly 32768 apart, where [expired] is false; and a
    deadline armed [ahead <= 32767] tics in the future is reported
    not expired before [ahead] tics have gone by and expired from then on,
    up to 32767 tics past the deadline, through any rollover of the clock. *)
Theorem expired_signed_difference :
  forall now deadline : Z,
    0 <= now < 65536 -> 0 <= deadline < 65536 ->
    (expired now deadline = true <-> 0 <= int16 (now - deadline)) /\
    (uint16 (deadline - now) <> 32768 ->
     (expired now deadline = true <-> int16 (deadline - now) <= 0)) /\
    (uint16 (deadline - now) = 32768 -> expired now deadline = false) /\
    (forall (ahead : Z) (elapsed : nat),
        0 <= ahead <= 32767 ->
        deadline = uint16 (now + ahead) ->
        Z.of_nat elapsed <= ahead + 32767 ->
        (expired (run_tics elapsed now) deadline = true
         <-> ahead <= Z.of_nat elapsed)).
Proof.
  intros now deadline Hn Hd.
  assert (X : uint16 (now - deadline) = 0 /\ uint16 (deadline - now) = 0 \/
              0 < uint16 (now - deadline) /\
              uint16 (deadline - now) = 65536 - uint16 (now - deadline)).
  { unfold uint16. destruct (Z.eq_dec now deadline) as [->|Hne].
    - left. rewrite Z.sub_diag. split; reflexivity.
    - right. destruct (Z.lt_ge_cases now deadline).
      + rewrite (Z.mod_small (deadline - now)) by lia.
        replace ((now - deadline) mod 65536) with (now - deadline + 65536).
        * lia.
        * apply (Z.mod_unique _ _ (-1)); lia.
      + rewrite (Z.mod_small (now - deadline)) by lia.
        replace ((deadline - now) mod 65536) with (deadline - now + 65536).
        * lia.
        * apply (Z.mod_unique _ _ (-1)); lia. }
  pose proof (uint16_range (now - deadline)) as R1.
  assert (U : forall z, int16 z = if uint16 z <? 32768 then uint16 z else uint16 z - 65536)
    by reflexivity.
  assert (I : forall z, uint16 (uint16 z) = uint16 z)
    by (intros z; apply uint16_small, uint16_range).
  assert (E : expired now deadline = true <-> uint16 (now - deadline) < 32768).
  { unfold expired. rewrite Z.leb_le, int16_nonneg_iff, I. reflexivity. }
  split; [|split; [|split]].
  - rewrite E, int16_nonneg_iff. reflexivity.
  - intros H. rewrite E, U.
    destruct (Z.ltb_spec (uint16 (deadline - now)) 32768); lia.
  - intros H. destruct (expired now deadline) eqn:X'; [|reflexivity].
    assert (uint16 (now - deadline) < 32768) by (now apply E). lia.
  - intros ahead elapsed Ha -> He.
    rewrite run_tics_spec by assumption.
    rewrite expired_offsets by lia. apply Z.leb_le.
Qed.

(** An instance across the rollover: armed at tic 65000 for 2000 tics
    ahead (deadline 1464), read 1999 and 2000 tics later. *)
Lemma expired_signed_difference_witness :
  (expired 65000 1464 = true <-> 0 <= int16 (65000 - 1464)) /\
  (expired (run_tics 1999 65000) 1464 = true <-> 2000 <= 1999) /\
  (expired (run_tics 2000 65000) 1464 = true <-> 2000 <= 2000).
Proof.
  pose proof (expired_signed_difference 65000 1464 ltac:(lia) ltac:(lia))
    as (H1 & _ & _ & H4).
  split; [exact H1|].
  split.
  - apply (H4 2000 1999%nat); [lia | reflexivity | lia].
  - apply (H4 2000 2000%nat); [lia | reflexivity | lia].
Defined.

(** ** Decoder: the table search *)

Import Decoder.

Lemma lookup_bounds (left : nat) (i code : Z) :
  i <= lookup left i code <= i + Z.of_nat left.
Proof.
  revert i. induction left as [|left IH]; intros i.
  - simpl. lia.
  - cbn [lookup]. destruct (nth (Z.to_nat i) morse_code 0 =? code).
    + lia.
    + specialize (IH (i + 1)). lia.
Qed.

Lemma lookup_found (left : nat) (i code : Z) :
  lookup left i code < i + Z.of_nat left ->
  nth (Z.to_nat (lookup left i code)) morse_code 0 = code.
Proof.
  revert i. induction left as [|left IH]; intros i H.
  - simpl in H. lia.
  - cbn [lookup] in *.
    destruct (Z.eqb_spec (nth (Z.to_nat i) morse_code 0) code) as [E|E].
    + exact E.
    + apply IH. lia.
Qed.

Example code_to_char_underscore : code_to_char 363 = chr "_".
Proof. reflexivity. Qed.

Example code_to_char_E : code_to_char 1 = chr "E".
Proof. reflexivity. Qed.

Example code_to_char_invalid : code_to_char 255 = chr "#".
Proof. reflexivity. Qed.

(** Every result of [code_to_char] is ['_'], ['#'] or [' ' + i] for an
    index [1 <= i <= 58]. *)
Lemma code_to_char_cases (code : Z) :
  code_to_char code = chr "_" \/ code_to_char code = chr "#" \/
  exists i, 1 <= i <= 58 /\ code_to_char code = chr " " + i.
Proof.
  unfold code_to_char.
  pose proof (lookup_bounds (Z.to_nat CODE_LENGTH) 0 code) as B.
  remember (lookup (Z.to_nat CODE_LENGTH) 0 code) as i.
  destruct (Z.eqb_spec i 0); [now left|].
  right. destruct (Z.ltb_spec i CODE_LENGTH); [right|now left].
  exists i. unfold CODE_LENGTH in *. split; [lia|reflexivity].
Qed.

(** C1, the claim fails: the search for code number 0 stops at index 3,
    the first table entry that is 0, and the character is ['#']. *)
Lemma code_to_char_0_not_underscore :
  code_to_char 0 <> chr "_" /\
  fst (decode END_OF_CHAR init) <> chr "_".
Proof. split; vm_compute; discriminate. Qed.

(** C1 (amended): at an end-of-char with accumulated code number 0 the
    decoder returns ['#'] (= [' ' + 3], index 3 holding the first 0 of the
    table) and resets its accumulator; ['_'] is the character of table
    index 0 and is returned for code number 363 ([..--.-]) only. *)
Theorem end_of_char_with_code_0 :
  code_to_char 0 = chr "#" /\
  (forall bm, decode END_OF_CHAR (mk 0 bm) = (chr "#", init)) /\
  (forall code, code_to_char code = chr "_" <-> code = 363).
Proof.
  split; [reflexivity|]. split; [reflexivity|].
  intros code. split.
  - unfold code_to_char.
    pose proof (lookup_bounds (Z.to_nat CODE_LENGTH) 0 code) as B.
    pose proof (lookup_found (Z.to_nat CODE_LENGTH) 0 code) as F.
    remember (lookup (Z.to_nat CODE_LENGTH) 0 code) as i.
    destruct (Z.eqb_spec i 0) as [->|Hi].
    + intros _. symmetry. apply F. vm_compute. reflexivity.
    + unfold CODE_LENGTH in *.
      destruct (Z.ltb_spec i 59); vm_compute chr; intros E.
      * change (Z.of_nat (Z.to_nat 59)) with 59 in B. lia.
      * discriminate E.
  - intros ->. reflexivity.
Qed.

(** ** Software UART *)

Import Uart.

Lemma tick_uart_putchar (c : Z) (s : Uart.t) :
  tick (uart_putchar c s) = tick (uart_putchar c Uart.init).
Proof. reflexivity. Qed.

Lemma line_uart_putchar (n : nat) (c : Z) (s : Uart.t) :
  line (S n) (uart_putchar c s) = line (S n) (uart_putchar c Uart.init).
Proof. cbn [line]. now rewrite tick_uart_putchar. Qed.

Lemma enabled_uart_putchar (n : nat) (c : Z) (s : Uart.t) :
  enabled (S n) (uart_putchar c s) = enabled (S n) (uart_putchar c Uart.init).
Proof. cbn [enabled]. now rewrite tick_uart_putchar. Qed.

(** Once the interrupt has disabled itself the line keeps its level. *)
Lemma line_disabled (n : nat) (sr : Z) (tx : bool) :
  line n (Uart.mk sr false tx) = (repeat tx n, Uart.mk sr false tx) /\
  enabled n (Uart.mk sr false tx) = repeat false n.
Proof.
  induction n as [|n [IH1 IH2]]; [split; reflexivity|].
  cbn [line enabled tick OCIE0B repeat TX_PIN].
  rewrite IH1, IH2. split; reflexivity.
Qed.

(** C6: after [uart_putchar 0x41] the next ten transmit interrupts put on
    the line the start bit 0, the bits 1,0,0,0,0,0,1,0 of 0x41 (least
    significant first) and the stop bit 1; the interrupt is enabled for the
    first nine and disables itself in the tenth; from then on the line stays
    high and the interrupt stays off. *)
Theorem uart_frame_0x41 :
  forall s : Uart.t,
    let s0 := uart_putchar 65 s in
    fst (line 10 s0)
      = [false; true; false; false; false; false; false; true; false; true] /\
    enabled 10 s0
      = [true; true; true; true; true; true; true; true; true; false] /\
    forall n : nat,
      fst (line n (snd (line 10 s0))) = repeat true n /\
      enabled n (snd (line 10 s0)) = repeat false n.
Proof.
  intros s s0. subst s0.
  rewrite line_uart_putchar, enabled_uart_putchar.
  split; [reflexivity|]. split; [reflexivity|].
  intros n.
  change (snd (line 10 (uart_putchar 65 Uart.init))) with (Uart.mk 0 false true).
  destruct (line_disabled n 0 true) as [-> ->]. split; reflexivity.
Qed.

Lemma bits_eqb_eq (a b : list bool) : bits_eqb a b = true -> a = b.
Proof.
  revert b. induction a as [|x a IH]; intros [|y b] H; try discriminate H.
  - reflexivity.
  - cbn [bits_eqb] in H. apply andb_prop in H as [H1 H2].
    apply Bool.eqb_prop in H1. subst y. f_equal. now apply IH.
Qed.

Lemma frame_ok_all : forallb frame_ok (map Z.of_nat (seq 1 255)) = true.
Proof. vm_compute. reflexivity. Qed.

(** Every byte but NUL is framed correctly. *)
Lemma frame_nonzero_byte (c : Z) (s : Uart.t) :
  1 <= c <= 255 ->
  fst (line 10 (uart_putchar c s)) = false :: bits_lsb_first c ++ [true] /\
  enabled 10 (uart_putchar c s) = repeat true 9 ++ [false].
Proof.
  intros Hc. rewrite line_uart_putchar, enabled_uart_putchar.
  pose proof frame_ok_all as A. rewrite forallb_forall in A.
  specialize (A c). unfold frame_ok in A.
  apply andb_prop in A as [A1 A2].
  - split; now apply bits_eqb_eq.
  - apply in_map_iff. exists (Z.to_nat c). split; [lia|].
    apply in_seq. lia.
Qed.

(** C9: a nonzero result of [decode] is [' '], ['#'], ['_'] or [' ' + i]
    with [1 <= i <= 58], hence in 32..95; as a byte it is neither 0x00 nor
    0x80, and after [uart_putchar] of it the transmit interrupt sends start
    bit, eight data bits and stop bit, staying enabled through the first
    nine compare matches and disabling itself in the tenth, the one that
    sends the stop bit. *)
Theorem decode_printable :
  forall (symbol : symbol_t) (s : Decoder.t),
    let c := fst (decode symbol s) in
    c <> 0 ->
    32 <= c <= 95 /\
    (c = chr " " \/ c = chr "#" \/ c = chr "_" \/
     exists i, 1 <= i <= 58 /\ c = chr " " + i) /\
    uint8 c <> 0 /\ uint8 c <> 128 /\
    forall u : Uart.t,
      fst (line 10 (uart_putchar c u)) = false :: bits_lsb_first c ++ [true] /\
      enabled 10 (uart_putchar c u) = repeat true 9 ++ [false].
Proof.
  intros symbol s c Hc.
  assert (K : c = chr " " \/ c = chr "#" \/ c = chr "_" \/
              exists i, 1 <= i <= 58 /\ c = chr " " + i).
  { subst c. destruct symbol; cbn [decode fst] in *; try (now elim Hc).
    - destruct (code_to_char_cases (code s)) as [E|[E|E]]; auto.
    - now left. }
  assert (R : 32 <= c <= 95).
  { destruct K as [->|[->|[->|(i & Hi & ->)]]]; vm_compute chr; lia. }
  split; [exact R|]. split; [exact K|].
  unfold uint8. rewrite Z.mod_small by lia.
  split; [lia|]. split; [lia|].
  intros u. apply frame_nonzero_byte. lia.
Qed.

(** The word space produced at an end-of-word. *)
Lemma decode_printable_witness :
  32 <= fst (decode END_OF_WORD Decoder.init) <= 95 /\
  fst (line 10 (uart_putchar (fst (decode END_OF_WORD Decoder.init)) Uart.init))
    = [false; false; false; false; false; false; true; false; false; true].
Proof.
  destruct (decode_printable END_OF_WORD Decoder.init ltac:(vm_compute; discriminate))
    as (R & _ & _ & _ & F).
  split; [exact R|]. exact (proj1 (F Uart.init)).
Defined.

(** ** Tokenizer: runs of polls *)

Import Tokenizer.

(** [set_delays] always yields the delays of its dot time. *)
Lemma set_delays_of_dot (tbl : list Z) (PINB : Z) :
  set_delays tbl PINB = delays_of_dot (delay_1u (set_delays tbl PINB)).
Proof. reflexivity. Qed.

Example dot_times_ATtiny13A : dot_times ATtiny13A = [640; 960; 1440; 2304].
Proof. reflexivity. Qed.

Example dot_times_ATtinyX5 : dot_times ATtinyX5 = [641; 961; 1442; 2307].
Proof. reflexivity. Qed.

Example set_delays_5wpm :
  set_delays (dot_times ATtiny13A) 19 = mk_delays 2304 4608 6912.
Proof. reflexivity. Qed.

Lemma delays_of_dot_values (u : Z) :
  0 <= u <= 10922 ->
  delay_2u (delays_of_dot u) = 2 * u /\ delay_3u (delays_of_dot u) = 3 * u.
Proof.
  intros Hu. unfold delays_of_dot, set_delays.
  change (nth (Z.to_nat (Z.land 0 3)) [u] 0) with u.
  cbn [delay_2u delay_3u].
  rewrite (uint16_small (u + u)) by lia.
  rewrite uint16_small by lia. lia.
Qed.

Lemma run_app (d : delays) (l1 l2 : list (edge_t * Z)) (s : Tokenizer.t) :
  Tokenizer.run d (l1 ++ l2) s =
  (fst (Tokenizer.run d l1 s) ++ fst (Tokenizer.run d l2 (snd (Tokenizer.run d l1 s))),
   snd (Tokenizer.run d l2 (snd (Tokenizer.run d l1 s)))).
Proof.
  revert s. induction l1 as [|[e now] l1 IH]; intros s.
  - cbn. now destruct (Tokenizer.run d l2 s).
  - cbn [Tokenizer.run app]. destruct (tokenize d now e s) as [y s1].
    rewrite IH. destruct (Tokenizer.run d l1 s1) as [ys s2]. reflexivity.
Qed.

Lemma outcome_app (d : delays) (l1 l2 : list (edge_t * Z)) (s : Tokenizer.t) :
  outcome d (l1 ++ l2) s =
  (fst (outcome d l1 s) ++ fst (outcome d l2 (snd (outcome d l1 s))),
   snd (outcome d l2 (snd (outcome d l1 s)))).
Proof.
  unfold outcome. rewrite run_app. cbn [fst snd].
  unfold emitted. now rewrite filter_app.
Qed.

Lemma outcome_one (d : delays) (e : edge_t) (now : Z) (s : Tokenizer.t) :
  outcome d [(e, now)] s =
  (emitted [fst (tokenize d now e s)], snd (tokenize d now e s)).
Proof.
  unfold outcome. cbn [Tokenizer.run].
  now destruct (tokenize d now e s).
Qed.

Lemma idle_S (n : nat) (t0 a : Z) :
  idle (uint16 (t0 + a)) (S n) =
  (NO_EDGE, uint16 (t0 + (a + 1))) :: idle (uint16 (t0 + (a + 1))) n.
Proof. cbn [idle]. now rewrite TIM0_COMPA_vect_offset. Qed.

Lemma idle_snoc (n : nat) (t0 a : Z) :
  idle (uint16 (t0 + a)) (S n) =
  idle (uint16 (t0 + a)) n ++ [(NO_EDGE, uint16 (t0 + (a + Z.of_nat n + 1)))].
Proof.
  revert a. induction n as [|n IH]; intros a.
  - rewrite idle_S. cbn [idle app].
    now replace (a + Z.of_nat 0 + 1) with (a + 1) by lia.
  - rewrite idle_S, IH, (idle_S n). cbn [app].
    now replace (a + 1 + Z.of_nat n + 1) with (a + Z.of_nat (S n) + 1) by lia.
Qed.

Section IdleRuns.

Variable d : delays.
Variable t0 : Z.
Hypothesis d2_range : 1 <= delay_2u d <= 32767.

(** While the key stays down: [SHORT] until the poll [delay_2u] tics after
    the falling edge, [LONG] from that poll on; nothing is emitted. *)
Lemma idle_SHORT (n : nat) :
  outcome d (idle (uint16 (t0 + 0)) n) (Tokenizer.mk SHORT (uint16 (t0 + delay_2u d))) =
  ([], Tokenizer.mk (if Z.of_nat n <? delay_2u d then SHORT else LONG)
         (uint16 (t0 + delay_2u d))).
Proof.
  induction n as [|n IH].
  - cbn. destruct (Z.ltb_spec 0 (delay_2u d)); [reflexivity|lia].
  - rewrite idle_snoc, outcome_app, IH, outcome_one. cbn [fst snd app].
    destruct (Z.ltb_spec (Z.of_nat n) (delay_2u d)) as [H|H];
      destruct (Z.ltb_spec (Z.of_nat (S n)) (delay_2u d)) as [H'|H']; try lia;
      cbn [tokenize Tokenizer.state Tokenizer.timeout];
      try reflexivity.
    + rewrite expired_offsets by lia.
      destruct (Z.leb_spec (delay_2u d) (0 + Z.of_nat n + 1)); [lia|reflexivity].
    + rewrite expired_offsets by lia.
      destruct (Z.leb_spec (delay_2u d) (0 + Z.of_nat n + 1)); [reflexivity|lia].
Qed.

Hypothesis d3_range : 1 <= delay_3u d <= 32767.

(** While the key stays up after a rising edge polled at tic [t0]: the poll
    [delay_2u] tics later emits [END_OF_CHAR], the poll [delay_3u] tics
    after that one emits [END_OF_WORD]. *)
Lemma idle_INTERELEMENT (n : nat) :
  outcome d (idle (uint16 (t0 + 0)) n) (after_mark d (uint16 (t0 + 0))) =
  if Z.of_nat n <? delay_2u d
  then ([], after_mark d (uint16 (t0 + 0)))
  else if Z.of_nat n <? delay_2u d + delay_3u d
  then ([END_OF_CHAR],
        Tokenizer.mk INTERCHARACTER (uint16 (t0 + (delay_2u d + delay_3u d))))
  else ([END_OF_CHAR; END_OF_WORD],
        Tokenizer.mk INTERWORD (uint16 (t0 + (delay_2u d + delay_3u d)))).
Proof.
  assert (A : after_mark d (uint16 (t0 + 0)) =
              Tokenizer.mk INTERELEMENT (uint16 (t0 + delay_2u d))).
  { unfold after_mark. rewrite uint16_add_l.
    now replace (t0 + 0 + delay_2u d) with (t0 + delay_2u d) by lia. }
  rewrite A.
  induction n as [|n IH].
  - cbn. destruct (Z.ltb_spec 0 (delay_2u d)); [reflexivity|lia].
  - rewrite idle_snoc, outcome_app, IH, outcome_one. clear IH.
    destruct (Z.ltb_spec (Z.of_nat n) (delay_2u d)) as [H|H];
      destruct (Z.ltb_spec (Z.of_nat (S n)) (delay_2u d)) as [H'|H']; try lia;
      [ | | destruct (Z.ltb_spec (Z.of_nat n) (delay_2u d + delay_3u d)) as [K|K];
            destruct (Z.ltb_spec (Z.of_nat (S n)) (delay_2u d + delay_3u d)) as [K'|K'];
            try lia ];
      cbn [fst snd app tokenize Tokenizer.state Tokenizer.timeout];
      try reflexivity.
    + rewrite expired_offsets by lia.
      destruct (Z.leb_spec (delay_2u d) (0 + Z.of_nat n + 1)); [lia|reflexivity].
    + rewrite expired_offsets by lia.
      destruct (Z.leb_spec (delay_2u d) (0 + Z.of_nat n + 1)); [|lia].
      destruct (Z.ltb_spec (Z.of_nat (S n)) (delay_2u d + delay_3u d)); [|lia].
      cbn. rewrite uint16_add_l.
      now replace (t0 + (Z.of_nat n + 1) + delay_3u d)
        with (t0 + (delay_2u d + delay_3u d)) by lia.
    + rewrite expired_offsets by lia.
      destruct (Z.leb_spec (delay_2u d + delay_3u d) (0 + Z.of_nat n + 1));
        [lia|reflexivity].
    + rewrite expired_offsets by lia.
      destruct (Z.leb_spec (delay_2u d + delay_3u d) (0 + Z.of_nat n + 1));
        [reflexivity|lia].
Qed.

End IdleRuns.

(** The same two lemmas for a clock reading [now]. *)
Lemma idle_SHORT_now (d : delays) (now : Z) (n : nat) :
  1 <= delay_2u d <= 32767 -> 0 <= now < 65536 ->
  outcome d (idle now n) (Tokenizer.mk SHORT (uint16 (now + delay_2u d))) =
  ([], Tokenizer.mk (if Z.of_nat n <? delay_2u d then SHORT else LONG)
         (uint16 (now + delay_2u d))).
Proof.
  intros R Hnow. pose proof (idle_SHORT d now R n) as H.
  rewrite Z.add_0_r, (uint16_small now) in H by assumption. exact H.
Qed.

Lemma idle_INTERELEMENT_now (d : delays) (now : Z) (n : nat) :
  1 <= delay_2u d <= 32767 -> 1 <= delay_3u d <= 32767 -> 0 <= now < 65536 ->
  outcome d (idle now n) (after_mark d now) =
  if Z.of_nat n <? delay_2u d
  then ([], after_mark d now)
  else if Z.of_nat n <? delay_2u d + delay_3u d
  then ([END_OF_CHAR],
        Tokenizer.mk INTERCHARACTER (uint16 (now + (delay_2u d + delay_3u d))))
  else ([END_OF_CHAR; END_OF_WORD],
        Tokenizer.mk INTERWORD (uint16 (now + (delay_2u d + delay_3u d)))).
Proof.
  intros R2 R3 Hnow. pose proof (idle_INTERELEMENT d now R2 R3 n) as H.
  rewrite Z.add_0_r, (uint16_small now) in H by assumption. exact H.
Qed.

(** A falling edge starts a mark from every gap state. *)
Lemma fall_in_gap (d : delays) (now : Z) (s : Tokenizer.t) :
  Tokenizer.state s = INTERWORD \/ Tokenizer.state s = INTERELEMENT \/
  Tokenizer.state s = INTERCHARACTER ->
  tokenize d now FALL s = (NO_SYMBOL, Tokenizer.mk SHORT (uint16 (now + delay_2u d))).
Proof.
  unfold tokenize. intros [H|[H|H]]; rewrite H; reflexivity.
Qed.

(** ** Marks *)

Example mark_one_tic_past_2u :
  fst (outcome (set_delays (dot_times ATtiny13A) 0) (mark 0 1281) Tokenizer.init)
  = [DASH].
Proof. vm_compute. reflexivity. Qed.

(** C4, the claim fails at exact equality: a rising edge polled exactly
    [delay_2u] tics after the falling edge finds the tokenizer still in
    [SHORT], because [tokenize] tests the edge before the timeout, and the
    mark is a dot.  (18 wpm on the ATtiny13A: a dot is 640 tics.) *)
Lemma mark_of_2u_is_dot :
  let dl := set_delays (dot_times ATtiny13A) 0 in
  ~ (delay_2u dl <= 1280 ->
     fst (outcome dl (mark 0 1280) Tokenizer.init) = [DASH]).
Proof.
  intros dl H.
  assert (E : fst (outcome dl (mark 0 1280) Tokenizer.init) = [DASH])
    by (apply H; vm_compute; discriminate).
  vm_compute in E. discriminate E.
Qed.

(** C4 (amended): a mark entered from a gap state and polled once per tic
    emits exactly one symbol: a dot if the rising edge is polled at most
    [2u] tics after the falling edge (equality included), a dash if it is
    polled more than [2u] tics after it; the tokenizer is then in
    [INTERELEMENT]. *)
Theorem mark_dot_or_dash :
  forall (u now d : Z) (s : Tokenizer.t),
    1 <= u <= 10922 -> 0 <= now < 65536 -> 1 <= d ->
    Tokenizer.state s = INTERWORD \/ Tokenizer.state s = INTERELEMENT \/
    Tokenizer.state s = INTERCHARACTER ->
    let dl := delays_of_dot u in
    (d <= 2 * u -> fst (outcome dl (mark now d) s) = [DOT]) /\
    (2 * u < d -> fst (outcome dl (mark now d) s) = [DASH]) /\
    Tokenizer.state (snd (outcome dl (mark now d) s)) = INTERELEMENT.
Proof.
  intros u now d s Hu Hnow Hd Hs dl.
  destruct (delays_of_dot_values u ltac:(lia)) as [D2 _]. fold dl in D2.
  assert (R : 1 <= delay_2u dl <= 32767) by lia.
  unfold mark.
  change ((FALL, now) :: idle now (Z.to_nat (d - 1)) ++ [(RISE, run_tics (Z.to_nat d) now)])
    with ([(FALL, now)] ++ idle now (Z.to_nat (d - 1)) ++ [(RISE, run_tics (Z.to_nat d) now)]).
  rewrite !outcome_app, !outcome_one, (fall_in_gap _ _ _ Hs).
  cbn [fst snd].
  rewrite (idle_SHORT_now dl now _ R Hnow).
  cbn [fst snd app].
  rewrite Z2Nat.id by lia.
  destruct (Z.ltb_spec (d - 1) (delay_2u dl));
    cbn [tokenize Tokenizer.state Tokenizer.timeout fst snd];
    (split; [|split]); intros; try reflexivity; lia.
Qed.

(** A dot of 100 tics at 18 wpm, keyed while the clock rolls over. *)
Lemma mark_dot_or_dash_witness :
  fst (outcome (delays_of_dot 640) (mark 65500 100) Tokenizer.init) = [DOT].
Proof.
  apply (proj1 (mark_dot_or_dash 640 65500 100 Tokenizer.init
                  ltac:(lia) ltac:(lia) ltac:(lia) (or_introl eq_refl))).
  lia.
Defined.

(** ** Gaps *)

(** C2, the claim fails: a gap of 4 units gives no end-of-word, the
    [END_OF_WORD] timeout being armed for [delay_3u] at the poll that emits
    [END_OF_CHAR], that is 5 units after the rising edge; and a falling edge
    polled exactly 2 units after the rising one still continues the
    character.  (18 wpm on the ATtiny13A: a unit is 640 tics.) *)
Lemma gap_of_4u_no_end_of_word :
  let dl := set_delays (dot_times ATtiny13A) 0 in
  ~ (delay_3u dl <= 2560 ->
     fst (outcome dl (gap 0 2560) (after_mark dl 0)) = [END_OF_CHAR; END_OF_WORD]) /\
  ~ (delay_2u dl <= 1280 < delay_3u dl ->
     fst (outcome dl (gap 0 1280) (after_mark dl 0)) = [END_OF_CHAR]).
Proof.
  intros dl. split; intros H.
  - assert (E : fst (outcome dl (gap 0 2560) (after_mark dl 0))
                = [END_OF_CHAR; END_OF_WORD])
      by (apply H; vm_compute; discriminate).
    vm_compute in E. discriminate E.
  - assert (E : fst (outcome dl (gap 0 1280) (after_mark dl 0)) = [END_OF_CHAR])
      by (apply H; vm_compute; split; [discriminate|reflexivity]).
    vm_compute in E. discriminate E.
Qed.

(** C2 (amended): a gap after a mark, polled once per tic and ended by a
    falling edge [g] tics after the rising one, emits nothing if [g <= 2u];
    exactly one [END_OF_CHAR] and no [END_OF_WORD] if [2u < g <= 5u];
    [END_OF_CHAR] followed by [END_OF_WORD] if [5u < g]. *)
Theorem gap_symbols :
  forall u now g : Z,
    1 <= u <= 10922 -> 0 <= now < 65536 -> 1 <= g ->
    let dl := delays_of_dot u in
    let ys := fst (outcome dl (gap now g) (after_mark dl now)) in
    (g <= 2 * u -> ys = []) /\
    (2 * u < g <= 5 * u -> ys = [END_OF_CHAR]) /\
    (5 * u < g -> ys = [END_OF_CHAR; END_OF_WORD]).
Proof.
  intros u now g Hu Hnow Hg dl ys. subst ys.
  destruct (delays_of_dot_values u ltac:(lia)) as [D2 D3]. fold dl in D2, D3.
  assert (R2 : 1 <= delay_2u dl <= 32767) by lia.
  assert (R3 : 1 <= delay_3u dl <= 32767) by lia.
  unfold gap. rewrite outcome_app, outcome_one.
  rewrite (idle_INTERELEMENT_now dl now _ R2 R3 Hnow).
  rewrite Z2Nat.id by lia.
  destruct (Z.ltb_spec (g - 1) (delay_2u dl));
    [|destruct (Z.ltb_spec (g - 1) (delay_2u dl + delay_3u dl))];
    cbn [fst snd]; rewrite fall_in_gap by (cbn; auto);
    cbn [fst snd app]; (split; [|split]); intros; try reflexivity; lia.
Qed.

(** Gaps of 1000, 3000 and 3300 tics at 18 wpm (a unit is 640 tics). *)
Lemma gap_symbols_witness :
  fst (outcome (delays_of_dot 640) (gap 65000 1000) (after_mark (delays_of_dot 640) 65000))
    = [] /\
  fst (outcome (delays_of_dot 640) (gap 65000 3000) (after_mark (delays_of_dot 640) 65000))
    = [END_OF_CHAR] /\
  fst (outcome (delays_of_dot 640) (gap 65000 3300) (after_mark (delays_of_dot 640) 65000))
    = [END_OF_CHAR; END_OF_WORD].
Proof.
  split; [|split].
  - apply (gap_symbols 640 65000 1000); lia.
  - apply (gap_symbols 640 65000 3000); lia.
  - apply (gap_symbols 640 65000 3300); lia.
Defined.

(** ** Debounce *)

Lemma DEBOUNCE_TIME_value (m : mcu) : DEBOUNCE_TIME m = 96.
Proof. destruct m; vm_compute; reflexivity. Qed.

(** While the release is younger than the debounce time and the key is
    still up, [get_edge] stays in [BOUNCING] and reports nothing. *)
Lemma bouncing_quiet (m : mcu) (now : Z) (l : bool) (ks : list nat) :
  0 <= now < 65536 ->
  Forall (fun k => Z.of_nat k < DEBOUNCE_TIME m) ks ->
  let s := EdgeDetector.mk EdgeDetector.BOUNCING (uint16 (now + DEBOUNCE_TIME m)) l in
  EdgeDetector.run m (map (fun k => (run_tics k now, false)) ks) s
  = (repeat NO_EDGE (length ks), s).
Proof.
  intros Hnow H s. induction H as [|k ks Hk _ IH]; [reflexivity|].
  cbn [map EdgeDetector.run length repeat].
  assert (E : EdgeDetector.get_edge m (run_tics k now) false s = (NO_EDGE, s)).
  { unfold EdgeDetector.get_edge, s. cbn [EdgeDetector.state EdgeDetector.timeout].
    rewrite run_tics_spec by assumption.
    rewrite expired_offsets by (rewrite DEBOUNCE_TIME_value in *; lia).
    destruct (Z.leb_spec (DEBOUNCE_TIME m) (Z.of_nat k)); [lia|reflexivity]. }
  rewrite E, IH. reflexivity.
Qed.

Lemma edge_run_app (m : mcu) (l1 l2 : list (Z * bool)) (s : EdgeDetector.t) :
  EdgeDetector.run m (l1 ++ l2) s =
  (fst (EdgeDetector.run m l1 s)
     ++ fst (EdgeDetector.run m l2 (snd (EdgeDetector.run m l1 s))),
   snd (EdgeDetector.run m l2 (snd (EdgeDetector.run m l1 s)))).
Proof.
  revert s. induction l1 as [|[now k] l1 IH]; intros s.
  - cbn. now destruct (EdgeDetector.run m l2 s).
  - cbn [EdgeDetector.run app]. destruct (EdgeDetector.get_edge m now k s) as [e s1].
    rewrite IH. destruct (EdgeDetector.run m l1 s1) as [es s2]. reflexivity.
Qed.

(** C7: from [DOWN], a release polled at tic [now], any number of polls
    with the key still up less than [DEBOUNCE_TIME] tics later, and then a
    poll with the key down again: [get_edge] returns [NO_EDGE] at every one
    of these polls and ends in [DOWN], the LED unchanged. *)
Theorem bounce_absorbed :
  forall (m : mcu) (now now' : Z) (ks : list nat) (s : EdgeDetector.t),
    EdgeDetector.state s = EdgeDetector.DOWN ->
    0 <= now < 65536 ->
    Forall (fun k => Z.of_nat k < DEBOUNCE_TIME m) ks ->
    let polls :=
      (now, false) :: map (fun k => (run_tics k now, false)) ks ++ [(now', true)] in
    fst (EdgeDetector.run m polls s) = repeat NO_EDGE (length polls) /\
    EdgeDetector.state (snd (EdgeDetector.run m polls s)) = EdgeDetector.DOWN /\
    EdgeDetector.led (snd (EdgeDetector.run m polls s)) = EdgeDetector.led s.
Proof.
  intros m now now' ks s Hs Hnow Hks polls. subst polls.
  change ((now, false) :: map (fun k => (run_tics k now, false)) ks ++ [(now', true)])
    with ([(now, false)] ++ map (fun k => (run_tics k now, false)) ks ++ [(now', true)]).
  rewrite !edge_run_app.
  assert (E : EdgeDetector.run m [(now, false)] s =
              ([NO_EDGE], EdgeDetector.mk EdgeDetector.BOUNCING
                            (uint16 (now + DEBOUNCE_TIME m)) (EdgeDetector.led s))).
  { cbn [EdgeDetector.run]. unfold EdgeDetector.get_edge. now rewrite Hs. }
  rewrite E. cbn [fst snd].
  rewrite (bouncing_quiet m now (EdgeDetector.led s) ks Hnow Hks).
  cbn [fst snd EdgeDetector.run EdgeDetector.get_edge EdgeDetector.state
       EdgeDetector.led EdgeDetector.timeout].
  repeat split.
  rewrite !length_app, length_map. cbn [length app Nat.add repeat].
  rewrite repeat_app. reflexivity.
Qed.

(** A bounce while the clock rolls over: released at tic 65530, still up
    1, 5, 30 and 95 tics later, down again at tic 60. *)
Lemma bounce_absorbed_witness :
  fst (EdgeDetector.run ATtiny13A
         [(65530, false); (65531, false); (65535, false); (24, false);
          (89, false); (60, true)]
         (EdgeDetector.mk EdgeDetector.DOWN 0 true))
  = [NO_EDGE; NO_EDGE; NO_EDGE; NO_EDGE; NO_EDGE; NO_EDGE].
Proof.
  apply (bounce_absorbed ATtiny13A 65530 60 [1; 5; 30; 95]%nat
           (EdgeDetector.mk EdgeDetector.DOWN 0 true) eq_refl).
  - lia.
  - repeat constructor.
Defined.

(** ** Timeout horizons *)

Lemma land_3_range (x : Z) : 0 <= Z.land x 3 < 4.
Proof.
  change 3 with (Z.ones 2). rewrite Z.land_ones by lia.
  apply Z.mod_pos_bound. lia.
Qed.

(** How far ahead of [now] a timeout armed as [now + delay] lies. *)
Lemma armed_ahead (now delay : Z) :
  0 <= delay < 65536 -> uint16 (uint16 (now + delay) - now) = delay.
Proof.
  intros H. unfold uint16. rewrite Zminus_mod_idemp_l.
  replace (now + delay - now) with delay by lia.
  now apply Z.mod_small.
Qed.

(** C8: for both supported clocks, each of the four speed selections and
    every dot-time table within one tic of the exact quotients, the delays
    are [2] and [3] times the dot time without wrap-around, and the timeouts
    [now + DEBOUNCE_TIME], [now + delay_2u] and [now + delay_3u] lie exactly
    that far, and at most 32767 tics (in fact at most 6924), ahead of [now]
    on the wrapping clock; [expired] therefore reports none of them expired
    when it is armed. *)
Theorem timeouts_within_window :
  forall (m : mcu) (tbl : list Z) (PINB now : Z),
    Forall2 rounds_to (dot_times m) tbl ->
    0 <= now < 65536 ->
    let dl := set_delays tbl PINB in
    let ahead timeout := uint16 (timeout - now) in
    0 < delay_1u dl /\
    delay_2u dl = 2 * delay_1u dl /\
    delay_3u dl = 3 * delay_1u dl /\
    ahead (uint16 (now + DEBOUNCE_TIME m)) = DEBOUNCE_TIME m /\
    ahead (uint16 (now + delay_2u dl)) = delay_2u dl /\
    ahead (uint16 (now + delay_3u dl)) = delay_3u dl /\
    0 < DEBOUNCE_TIME m <= 32767 /\
    delay_2u dl <= 32767 /\
    delay_3u dl <= 6924 /\
    expired now (uint16 (now + DEBOUNCE_TIME m)) = false /\
    expired now (uint16 (now + delay_2u dl)) = false /\
    expired now (uint16 (now + delay_3u dl)) = false.
Proof.
  intros m tbl PINB now Htbl Hnow dl ahead.
  assert (U : 639 <= delay_1u dl <= 2308).
  { subst dl. unfold set_delays. cbn [delay_1u].
    pose proof (land_3_range PINB) as Hs.
    unfold rounds_to in Htbl.
    destruct m; vm_compute dot_times in Htbl;
      inversion Htbl as [|? a ? ? Ha H1]; subst;
      inversion H1 as [|? b ? ? Hb H2]; subst;
      inversion H2 as [|? c ? ? Hc H3]; subst;
      inversion H3 as [|? e ? ? He H4]; subst;
      inversion H4; subst;
      assert (C : Z.land PINB 3 = 0 \/ Z.land PINB 3 = 1 \/
                  Z.land PINB 3 = 2 \/ Z.land PINB 3 = 3) by lia;
      destruct C as [C|[C|[C|C]]]; rewrite C;
      match goal with
      | |- context [Z.to_nat ?k] =>
          let n := eval vm_compute in (Z.to_nat k) in change (Z.to_nat k) with n
      end; cbn [nth]; lia. }
  assert (E2 : delay_2u dl = 2 * delay_1u dl).
  { subst dl. unfold set_delays in *. cbn [delay_1u delay_2u] in *.
    rewrite uint16_small; lia. }
  assert (E3 : delay_3u dl = 3 * delay_1u dl).
  { subst dl. unfold set_delays in *. cbn [delay_1u delay_2u delay_3u] in *.
    rewrite (uint16_small (_ + _)) by lia. rewrite uint16_small; lia. }
  pose proof (DEBOUNCE_TIME_value m) as ED.
  assert (X : forall delay, 0 < delay <= 32767 ->
                            expired now (uint16 (now + delay)) = false).
  { intros delay Hd.
    rewrite <- (uint16_small now Hnow) at 1.
    replace (uint16 now) with (uint16 (now + 0)) by (f_equal; lia).
    rewrite expired_offsets by lia.
    destruct (Z.leb_spec delay 0); [lia|reflexivity]. }
  subst ahead. cbn beta.
  rewrite !armed_ahead by lia.
  repeat split; try lia; apply X; lia.
Qed.

(** The slowest speed (5 wpm, both selection pins floating) on the
    ATtiny13A, armed at tic 60000. *)
Lemma timeouts_within_window_witness :
  delay_3u (set_delays (dot_times ATtiny13A) 19) = 6912 /\
  uint16 (uint16 (60000 + delay_3u (set_delays (dot_times ATtiny13A) 19)) - 60000)
    = delay_3u (set_delays (dot_times ATtiny13A) 19) /\
  delay_3u (set_delays (dot_times ATtiny13A) 19) <= 6924.
Proof.
  assert (T : Forall2 rounds_to (dot_times ATtiny13A) (dot_times ATtiny13A))
    by (repeat constructor; vm_compute; discriminate).
  pose proof (timeouts_within_window ATtiny13A (dot_times ATtiny13A) 19 60000
                T ltac:(lia)) as H.
  cbv zeta in H.
  split; [reflexivity|].
  split; [apply H|apply H].
Defined.

(** ** No end-of-char without a mark *)

Import Pipeline.

Example end_of_char_without_mark :
  marks_before_end_of_char false [DOT; END_OF_CHAR; NO_SYMBOL; END_OF_CHAR] = false.
Proof. reflexivity. Qed.

Lemma marks_before_end_of_char_cons (seen : bool) (y : symbol_t) (ys : list symbol_t) :
  (y = END_OF_CHAR -> seen = true) ->
  marks_before_end_of_char seen (y :: ys) =
  marks_before_end_of_char (seen_after seen y) ys.
Proof.
  intros H. destruct y; try reflexivity.
  cbn. now rewrite H.
Qed.

Lemma mark_sets_code (s : Decoder.t) (y : symbol_t) :
  y = DOT \/ y = DASH ->
  (code s = 0 -> bitmask s = 1) ->
  code (snd (decode y s)) <> 0.
Proof.
  intros Hy Hs.
  destruct (Z.eq_dec (code s) 0) as [E|E].
  - destruct s as [c b]. cbn in E, Hs. subst c. rewrite (Hs eq_refl).
    destruct Hy as [->| ->]; vm_compute; discriminate.
  - destruct Hy as [->| ->]; cbn [decode snd code]; intros H;
      apply Z.lor_eq_0_iff in H; tauto.
Qed.

(** One pass keeps the machines linked, and meets an [END_OF_CHAR] only
    after a mark. *)
Lemma step_linked (d : delays) (poll : edge_t * Z) (seen : bool)
      (s : Tokenizer.t * Decoder.t) :
  linked seen s ->
  let p := fst (step d poll s) in
  (symbol p = END_OF_CHAR -> seen = true /\ code_in p <> 0) /\
  linked (seen_after seen (symbol p)) (snd (step d poll s)).
Proof.
  intros (L1 & L2 & L3).
  destruct s as [tk dc], poll as [e now]. cbn [fst snd] in *.
  unfold step. cbn [fst snd].
  destruct tk as [st tmo]. cbn [Tokenizer.state] in L1.
  pose proof (mark_sets_code dc DOT (or_introl eq_refl) L3) as MD.
  pose proof (mark_sets_code dc DASH (or_intror eq_refl) L3) as MH.
  unfold linked.
  destruct st, e; cbn [tokenize Tokenizer.state Tokenizer.timeout];
    try destruct (expired now tmo);
    cbn [decode fst snd symbol code_in seen_after Tokenizer.state code bitmask
         Decoder.init] in *;
    repeat split; intros; try discriminate; try congruence; auto.
Qed.

Lemma run_linked (d : delays) (polls : list (edge_t * Z)) :
  forall (seen : bool) (s : Tokenizer.t * Decoder.t),
    linked seen s ->
    marks_before_end_of_char seen (map symbol (Pipeline.run d polls s)) = true /\
    Forall (fun p => symbol p = END_OF_CHAR -> code_in p <> 0) (Pipeline.run d polls s).
Proof.
  induction polls as [|poll polls IH]; intros seen s L.
  - split; [reflexivity|constructor].
  - cbn [Pipeline.run].
    destruct (step_linked d poll seen s L) as [P1 P2].
    destruct (step d poll s) as [p s1]. cbn [fst snd] in *.
    destruct (IH _ _ P2) as [I1 I2].
    cbn [map]. split.
    + rewrite marks_before_end_of_char_cons; [exact I1|]. apply P1.
    + constructor; [apply P1|exact I2].
Qed.

Lemma pipeline_symbols (d : delays) (polls : list (edge_t * Z)) :
  forall s, map symbol (Pipeline.run d polls s) = fst (Tokenizer.run d polls (fst s)).
Proof.
  induction polls as [|[e now] polls IH]; intros [tk dc]; [reflexivity|].
  cbn [Pipeline.run Tokenizer.run]. unfold step. cbn [fst snd].
  destruct (tokenize d now e tk) as [y tk1].
  destruct (decode y dc) as [c dc1].
  cbn [map symbol]. rewrite IH. cbn [fst].
  now destruct (Tokenizer.run d polls tk1).
Qed.

(** C10: for any delays and any sequence of polls, the symbols the
    tokenizer emits from [INTERWORD] have a [DOT] or [DASH] before the first
    [END_OF_CHAR] and between any two consecutive ones; and in the pipeline
    started from the initial states, [decode] meets [END_OF_CHAR] only with
    a nonzero [code], so [code_to_char] is never called with 0. *)
Theorem end_of_char_after_mark :
  forall (d : delays) (polls : list (edge_t * Z)),
    marks_before_end_of_char false (fst (Tokenizer.run d polls Tokenizer.init)) = true /\
    Forall (fun p => symbol p = END_OF_CHAR -> code_in p <> 0)
           (Pipeline.run d polls (Tokenizer.init, Decoder.init)).
Proof.
  intros d polls.
  assert (L : linked false (Tokenizer.init, Decoder.init)).
  { repeat split; cbn; intros; try discriminate; auto. }
  destruct (run_linked d polls false _ L) as [H1 H2].
  rewrite pipeline_symbols in H1. auto.
Qed.

(** ** Round trip through the table *)

Import MakeCodeTable.

Lemma decoder_run_app (l1 l2 : list symbol_t) (s : Decoder.t) :
  Decoder.run (l1 ++ l2) s =
  (fst (Decoder.run l1 s) ++ fst (Decoder.run l2 (snd (Decoder.run l1 s))),
   snd (Decoder.run l2 (snd (Decoder.run l1 s)))).
Proof.
  revert s. induction l1 as [|y l1 IH]; intros s.
  - cbn. now destruct (Decoder.run l2 s).
  - cbn [Decoder.run app]. destruct (decode y s) as [c s1].
    rewrite IH. destruct (Decoder.run l1 s1) as [cs s2]. reflexivity.
Qed.

(** The 16-bit shift of the decoder is the generator's 32-bit shift cut to
    16 bits. *)
Lemma shl1_uint (b : Z) : shl1 (uint16 b) = uint16 (uint (Z.shiftl b 1)).
Proof.
  unfold shl1, uint, uint16. rewrite !Z.shiftl_mul_pow2 by lia.
  change (2 ^ 1) with 2.
  rewrite Z.mod_mod_divide by (exists 65536; reflexivity).
  now rewrite Zmult_mod_idemp_l.
Qed.

Lemma lor_uint16 (a b : Z) : Z.lor (uint16 a) (uint16 b) = uint16 (Z.lor a b).
Proof.
  unfold uint16. change 65536 with (2 ^ 16).
  rewrite <- !Z.land_ones by lia. now rewrite Z.land_lor_distr_l.
Qed.

(** The decoder follows the generator's loop modulo 2^16. *)
Lemma translate_decode (s : String.string) :
  forall c b n : Z,
    translate s c b = Some n ->
    exists bm,
      Decoder.run (keyed s) (Decoder.mk (uint16 c) (uint16 b))
      = (repeat 0 (length (keyed s)), Decoder.mk (uint16 n) bm).
Proof.
  induction s as [|p s IH]; intros c b n H.
  - cbn in H. destruct (c >? UINT16_MAX); [discriminate H|].
    injection H as <-. exists (uint16 b). reflexivity.
  - cbn [translate] in H. cbn [keyed Decoder.run length repeat].
    destruct (Ascii.eqb p "-").
    + apply IH in H as [bm H]. exists bm.
      cbn [decode code bitmask].
      rewrite !shl1_uint, lor_uint16, H. reflexivity.
    + destruct (Ascii.eqb p "."); [|discriminate H].
      cbn [negb] in H. apply IH in H as [bm H]. exists bm.
      cbn [decode code bitmask].
      rewrite shl1_uint, lor_uint16, H. reflexivity.
Qed.

Lemma entry_ok_all : forallb entry_ok (seq 0 59) = true.
Proof. vm_compute. reflexivity. Qed.

Lemma entry_ok_spec (i : nat) :
  (i < 59)%nat -> nth i morse_code 0 <> 0 ->
  0 < nth i morse_code 0 < 65536 /\
  code_to_char (nth i morse_code 0) = table_char (Z.of_nat i) /\
  translate (dots_and_dashes 16 (nth i morse_code 0)) 0 1 = Some (nth i morse_code 0).
Proof.
  intros Hi Hn. pose proof entry_ok_all as A. rewrite forallb_forall in A.
  specialize (A i ltac:(apply in_seq; lia)). unfold entry_ok in A.
  destruct (Z.eqb_spec (nth i morse_code 0) 0); [contradiction|].
  cbn [orb] in A. rewrite !andb_true_iff in A.
  destruct A as [[[A1 A2] A3] A4].
  apply Z.ltb_lt in A1, A2. apply Z.eqb_eq in A3.
  split; [lia|]. split; [exact A3|].
  destruct (translate _ 0 1) as [n'|]; [|discriminate A4].
  apply Z.eqb_eq in A4. now subst n'.
Qed.

(** C5: for every table index [i] whose entry is a code number (not the
    filler 0 of a character without Morse code), a dot/dash string exists
    that the generator translates to the entry, and feeding the dots and
    dashes of any such string to [decode], followed by [END_OF_CHAR],
    returns 0 for each mark and then the character of index [i] (['_'] for
    index 0, [' ' + i] otherwise), leaving the decoder reset; in particular
    DOT, DASH, DOT, DOT, END_OF_CHAR returns ['L']. *)
Theorem table_round_trip :
  (forall i : nat,
      (i < 59)%nat -> nth i morse_code 0 <> 0 ->
      (exists s, translate s 0 1 = Some (nth i morse_code 0)) /\
      (forall s : String.string,
          translate s 0 1 = Some (nth i morse_code 0) ->
          Decoder.run (keyed s ++ [END_OF_CHAR]) Decoder.init
          = (repeat 0 (length (keyed s)) ++ [table_char (Z.of_nat i)], Decoder.init))) /\
  Decoder.run [DOT; DASH; DOT; DOT; END_OF_CHAR] Decoder.init
  = ([0; 0; 0; 0; chr "L"], Decoder.init).
Proof.
  split; [|reflexivity].
  intros i Hi Hn.
  destruct (entry_ok_spec i Hi Hn) as (R & C & T).
  split; [eexists; exact T|].
  intros s Hs.
  destruct (translate_decode s 0 1 _ Hs) as [bm H].
  change (Decoder.mk (uint16 0) (uint16 1)) with Decoder.init in H.
  rewrite decoder_run_app, H. cbn [fst snd Decoder.run decode code].
  rewrite uint16_small by lia. rewrite C. reflexivity.
Qed.

(** The letter L, index 44 of the table, keyed as [.-..]. *)
Lemma table_round_trip_witness :
  Decoder.run (keyed ".-.." ++ [END_OF_CHAR]) Decoder.init
  = ([0; 0; 0; 0; chr "L"], Decoder.init).
Proof.
  apply (proj2 (proj1 table_round_trip 44%nat ltac:(lia) ltac:(vm_compute; discriminate))).
  reflexivity.
Defined.

(** * Further properties of the code *)

(** ** The blocking delay *)

Lemma wait_offsets (t0 n : Z) (k : nat) :
  0 <= n <= 32768 -> Z.of_nat k <= n ->
  forall fuel : nat,
    (Z.to_nat n - k < fuel)%nat ->
    Delay.wait fuel (uint16 (t0 + Z.of_nat k)) (uint16 (t0 + n))
    = Some ((Z.to_nat n - k)%nat, uint16 (t0 + n)).
Proof.
  intros Hn Hk fuel. revert k Hk.
  induction fuel as [|fuel IH]; intros k Hk Hf; [lia|].
  cbn [Delay.wait]. rewrite expired_offsets by lia.
  destruct (Z.leb_spec n (Z.of_nat k)) as [H|H].
  - replace (Z.to_nat n - k)%nat with O by lia.
    now replace (Z.of_nat k) with n by lia.
  - rewrite TIM0_COMPA_vect_offset.
    replace (Z.of_nat k + 1) with (Z.of_nat (S k)) by lia.
    rewrite IH by lia.
    now replace (S (Z.to_nat n - S k)) with (Z.to_nat n - k)%nat by lia.
Qed.

(** X1: [delay(n)] entered at clock [now] returns after exactly [n] tics,
    with the clock at [now + n] modulo 2^16, for every [n <= 32768]; for
    [32768 < n <= 65535] the timeout lies in the half turn that [expired]
    reads as past, and [delay] returns at once. *)
Theorem delay_duration :
  forall (now n : Z) (fuel : nat),
    0 <= now < 65536 -> 0 <= n < 65536 ->
    (n <= 32768 -> (Z.to_nat n < fuel)%nat ->
     Delay.delay fuel now n = Some (Z.to_nat n, uint16 (now + n))) /\
    (32768 < n -> (0 < fuel)%nat ->
     Delay.delay fuel now n = Some (O, now)).
Proof.
  intros now n fuel Hnow Hn. split.
  - intros Hs Hf. unfold Delay.delay.
    pose proof (wait_offsets now n 0 ltac:(lia) ltac:(lia) fuel ltac:(lia)) as W.
    cbn [Z.of_nat] in W. rewrite Z.add_0_r, (uint16_small now) in W by assumption.
    rewrite W. now rewrite Nat.sub_0_r.
  - intros Hl Hf. destruct fuel as [|fuel]; [lia|].
    unfold Delay.delay. cbn [Delay.wait].
    replace (expired now (uint16 (now + n))) with true; [reflexivity|].
    symmetry. rewrite <- (uint16_small now Hnow) at 1.
    replace (uint16 now) with (uint16 (now + 65536)).
    + rewrite expired_offsets by lia. apply Z.leb_le. lia.
    + unfold uint16. rewrite <- (Z.mul_1_l 65536) at 1. apply Z.mod_add. lia.
Qed.

(** One dot at 5 wpm, entered just before the rollover; and a count in the
    upper half of the range. *)
Lemma delay_duration_witness :
  Delay.delay 3000 65000 2304 = Some (2304%nat, 1768) /\
  Delay.delay 3000 65000 40000 = Some (O, 65000).
Proof.
  split.
  - apply (proj1 (delay_duration 65000 2304 3000 ltac:(lia) ltac:(lia))); lia.
  - apply (proj2 (delay_duration 65000 40000 3000 ltac:(lia) ltac:(lia))); lia.
Defined.

(** ** The edge detector *)

Import Keying.

Lemma steady_S (k : bool) (n : nat) (t0 a : Z) :
  steady k (uint16 (t0 + a)) (S n) =
  (uint16 (t0 + (a + 1)), k) :: steady k (uint16 (t0 + (a + 1))) n.
Proof. cbn [steady]. now rewrite TIM0_COMPA_vect_offset. Qed.

Lemma steady_snoc (k : bool) (n : nat) (t0 a : Z) :
  steady k (uint16 (t0 + a)) (S n) =
  steady k (uint16 (t0 + a)) n ++ [(uint16 (t0 + (a + Z.of_nat n + 1)), k)].
Proof.
  revert a. induction n as [|n IH]; intros a.
  - rewrite steady_S. cbn [steady app].
    now replace (a + Z.of_nat 0 + 1) with (a + 1) by lia.
  - rewrite steady_S, IH, (steady_S k n). cbn [app].
    now replace (a + 1 + Z.of_nat n + 1) with (a + Z.of_nat (S n) + 1) by lia.
Qed.

Lemma repeat_snoc {A : Type} (x : A) (n : nat) : repeat x n ++ [x] = repeat x (S n).
Proof. now rewrite <- repeat_cons. Qed.

(** With the key up, [BOUNCING] lasts until the poll [DEBOUNCE_TIME] tics
    after the release; that poll reports [RISE]. *)
Lemma steady_BOUNCING (m : mcu) (t0 : Z) (l : bool) (n : nat) :
  EdgeDetector.run m (steady false (uint16 (t0 + 0)) n)
    (EdgeDetector.mk EdgeDetector.BOUNCING (uint16 (t0 + DEBOUNCE_TIME m)) l)
  = if (n <? 96)%nat
    then (repeat NO_EDGE n,
          EdgeDetector.mk EdgeDetector.BOUNCING (uint16 (t0 + DEBOUNCE_TIME m)) l)
    else (repeat NO_EDGE 95 ++ RISE :: repeat NO_EDGE (n - 96),
          EdgeDetector.mk EdgeDetector.UP (uint16 (t0 + DEBOUNCE_TIME m)) false).
Proof.
  pose proof (DEBOUNCE_TIME_value m) as D.
  induction n as [|n IH]; [reflexivity|].
  rewrite steady_snoc, edge_run_app, IH. clear IH.
  destruct (Nat.ltb_spec n 96) as [H|H];
    destruct (Nat.ltb_spec (S n) 96) as [H'|H']; try lia;
    cbn [fst snd EdgeDetector.run EdgeDetector.get_edge EdgeDetector.state
         EdgeDetector.timeout EdgeDetector.led].
  - rewrite expired_offsets by lia.
    destruct (Z.leb_spec (DEBOUNCE_TIME m) (0 + Z.of_nat n + 1)); [lia|].
    cbn [fst snd]. now rewrite repeat_snoc.
  - rewrite expired_offsets by lia.
    destruct (Z.leb_spec (DEBOUNCE_TIME m) (0 + Z.of_nat n + 1)); [|lia].
    cbn [fst snd]. replace n with 95%nat by lia. reflexivity.
  - rewrite <- app_assoc. cbn [app]. rewrite repeat_snoc.
    now replace (S (n - 96)) with (S n - 96)%nat by lia.
Qed.

(** X2: a release polled at clock [now] in state [DOWN] and followed by
    [n] polls, one per tic, with the key still up: [get_edge] reports
    nothing during the first [DEBOUNCE_TIME] polls, the release included,
    reports [RISE] exactly once, at the poll [DEBOUNCE_TIME] tics after the
    release, turning the LED off, and nothing after it. *)
Theorem release_rises_once :
  forall (m : mcu) (now : Z) (n : nat) (s : EdgeDetector.t),
    EdgeDetector.state s = EdgeDetector.DOWN ->
    0 <= now < 65536 ->
    let polls := (now, false) :: steady false now n in
    (Z.of_nat n < DEBOUNCE_TIME m ->
     fst (EdgeDetector.run m polls s) = repeat NO_EDGE (S n) /\
     EdgeDetector.state (snd (EdgeDetector.run m polls s)) = EdgeDetector.BOUNCING) /\
    (DEBOUNCE_TIME m <= Z.of_nat n ->
     fst (EdgeDetector.run m polls s)
     = repeat NO_EDGE (Z.to_nat (DEBOUNCE_TIME m))
         ++ RISE :: repeat NO_EDGE (n - Z.to_nat (DEBOUNCE_TIME m)) /\
     snd (EdgeDetector.run m polls s)
     = EdgeDetector.mk EdgeDetector.UP (uint16 (now + DEBOUNCE_TIME m)) false).
Proof.
  intros m now n s Hs Hnow polls. subst polls.
  pose proof (DEBOUNCE_TIME_value m) as D.
  change ((now, false) :: steady false now n)
    with ([(now, false)] ++ steady false now n).
  rewrite edge_run_app.
  assert (E : EdgeDetector.run m [(now, false)] s =
              ([NO_EDGE], EdgeDetector.mk EdgeDetector.BOUNCING
                            (uint16 (now + DEBOUNCE_TIME m)) (EdgeDetector.led s))).
  { cbn [EdgeDetector.run]. unfold EdgeDetector.get_edge. now rewrite Hs. }
  rewrite E. cbn [fst snd].
  pose proof (steady_BOUNCING m now (EdgeDetector.led s) n) as B.
  rewrite Z.add_0_r, (uint16_small now) in B by assumption.
  rewrite B, D.
  change (Z.to_nat 96) with 96%nat.
  destruct (Nat.ltb_spec n 96); cbn [fst snd app]; split; intros; try lia; auto.
Qed.

(** A release that lasts 200 tics, polled at the rollover of the clock. *)
Lemma release_rises_once_witness :
  fst (EdgeDetector.run ATtiny13A ((65500, false) :: steady false 65500 200)
         (EdgeDetector.mk EdgeDetector.DOWN 0 true))
  = repeat NO_EDGE 96 ++ RISE :: repeat NO_EDGE 104.
Proof.
  apply (proj2 (release_rises_once ATtiny13A 65500 200
                  (EdgeDetector.mk EdgeDetector.DOWN 0 true) eq_refl ltac:(lia))).
  vm_compute. discriminate.
Defined.

(** One call keeps the LED in step with the state and reports only the
    edge that is due. *)
Lemma get_edge_alternates (m : mcu) (now : Z) (k : bool) (s : EdgeDetector.t) :
  EdgeDetector.led s = negb (is_up (EdgeDetector.state s)) ->
  let r := EdgeDetector.get_edge m now k s in
  EdgeDetector.led (snd r) = negb (is_up (EdgeDetector.state (snd r))) /\
  (fst r = FALL -> is_up (EdgeDetector.state s) = true
                   /\ is_up (EdgeDetector.state (snd r)) = false) /\
  (fst r = RISE -> is_up (EdgeDetector.state s) = false
                   /\ is_up (EdgeDetector.state (snd r)) = true) /\
  (fst r = NO_EDGE ->
   is_up (EdgeDetector.state (snd r)) = is_up (EdgeDetector.state s)).
Proof.
  intros L. destruct s as [st tmo l]. cbn [EdgeDetector.led EdgeDetector.state] in L.
  unfold EdgeDetector.get_edge. cbn [EdgeDetector.state EdgeDetector.timeout EdgeDetector.led].
  destruct st, k; cbn [negb]; try destruct (expired now tmo);
    cbn [fst snd EdgeDetector.led EdgeDetector.state is_up negb] in *;
    repeat split; intros; try discriminate; auto.
Qed.

(** X3: over any sequence of polls from the initial state, the edges
    [get_edge] reports alternate, starting with [FALL] (never two [FALL] or
    two [RISE] in a row), and the LED is on exactly while the state is not
    [UP]. *)
Theorem edges_alternate :
  forall (m : mcu) (polls : list (Z * bool)),
    alternating true (fst (EdgeDetector.run m polls EdgeDetector.init)) = true /\
    EdgeDetector.led (snd (EdgeDetector.run m polls EdgeDetector.init))
    = negb (is_up (EdgeDetector.state (snd (EdgeDetector.run m polls EdgeDetector.init)))).
Proof.
  intros m polls.
  assert (G : forall s,
             EdgeDetector.led s = negb (is_up (EdgeDetector.state s)) ->
             alternating (is_up (EdgeDetector.state s)) (fst (EdgeDetector.run m polls s)) = true /\
             EdgeDetector.led (snd (EdgeDetector.run m polls s))
             = negb (is_up (EdgeDetector.state (snd (EdgeDetector.run m polls s))))).
  { induction polls as [|[now k] polls IH]; intros s L.
    - split; [reflexivity|exact L].
    - cbn [EdgeDetector.run].
      destruct (get_edge_alternates m now k s L) as (L1 & F & R & N).
      destruct (EdgeDetector.get_edge m now k s) as [e s1]. cbn [fst snd] in *.
      destruct (IH s1 L1) as [I1 I2].
      destruct (EdgeDetector.run m polls s1) as [es s2]. cbn [fst snd] in *.
      split; [|exact I2].
      destruct e; cbn [alternating].
      + now rewrite <- (N eq_refl).
      + destruct (R eq_refl) as [R1 R2]. rewrite R1. rewrite R2 in I1. exact I1.
      + destruct (F eq_refl) as [F1 F2]. rewrite F1. rewrite F2 in I1. exact I1. }
  apply (G EdgeDetector.init). reflexivity.
Qed.

(** ** The order of symbols *)

Example word_end_without_char_end :
  Main.well_formed NO_SYMBOL [DOT; END_OF_CHAR; DASH; END_OF_WORD] = false.
Proof. reflexivity. Qed.

Lemma tokenize_well_formed (d : delays) (now : Z) (e : edge_t)
      (prev : symbol_t) (s : Tokenizer.t) :
  (Tokenizer.state s = INTERELEMENT -> Main.is_mark prev = true) ->
  (Tokenizer.state s = INTERCHARACTER -> prev = END_OF_CHAR) ->
  let y := fst (tokenize d now e s) in
  let s1 := snd (tokenize d now e s) in
  let prev1 := match y with NO_SYMBOL => prev | _ => y end in
  (forall ys, Main.well_formed prev (y :: ys) = Main.well_formed prev1 ys) /\
  (Tokenizer.state s1 = INTERELEMENT -> Main.is_mark prev1 = true) /\
  (Tokenizer.state s1 = INTERCHARACTER -> prev1 = END_OF_CHAR).
Proof.
  intros H1 H2. destruct s as [st tmo]. cbn [Tokenizer.state] in *.
  unfold tokenize. cbn [Tokenizer.state Tokenizer.timeout].
  destruct st, e; try destruct (expired now tmo);
    cbn [fst snd Tokenizer.state Main.well_formed Main.is_mark];
    repeat split; intros; try discriminate; auto;
    try (rewrite H1 by reflexivity; reflexivity);
    try (rewrite H2 by reflexivity; reflexivity).
Qed.

(** X4: over any sequence of polls from the initial state and for any
    delays, every [END_OF_WORD] the tokenizer emits comes directly after an
    [END_OF_CHAR], and every [END_OF_CHAR] directly after a [DOT] or
    [DASH]: a word never ends inside a character, and no two word ends
    follow each other. *)
Theorem symbols_well_formed :
  forall (d : delays) (polls : list (edge_t * Z)),
    Main.well_formed NO_SYMBOL (fst (Tokenizer.run d polls Tokenizer.init)) = true.
Proof.
  intros d polls.
  assert (G : forall prev s,
             (Tokenizer.state s = INTERELEMENT -> Main.is_mark prev = true) ->
             (Tokenizer.state s = INTERCHARACTER -> prev = END_OF_CHAR) ->
             Main.well_formed prev (fst (Tokenizer.run d polls s)) = true).
  { induction polls as [|[e now] polls IH]; intros prev s H1 H2; [reflexivity|].
    cbn [Tokenizer.run].
    destruct (tokenize_well_formed d now e prev s H1 H2) as (W & I1 & I2).
    destruct (tokenize d now e s) as [y s1]. cbn [fst snd] in *.
    specialize (IH _ _ I1 I2).
    destruct (Tokenizer.run d polls s1) as [ys s2]. cbn [fst] in *.
    now rewrite W. }
  apply G; intros H; discriminate H.
Qed.

(** ** The main loop: edge detector and tokenizer in step *)

(** One pass keeps the two machines in step: the edge detector is [UP]
    exactly when the tokenizer is in a gap state. *)
Lemma loop_body_in_step (m : mcu) (d : delays) (r : Main.reading) (s : Main.t) :
  is_up (EdgeDetector.state (Main.edge_detector s))
  = Main.is_gap (Tokenizer.state (Main.tokenizer s)) ->
  let p := fst (Main.loop_body m d r s) in
  let s1 := snd (Main.loop_body m d r s) in
  is_up (EdgeDetector.state (Main.edge_detector s1))
  = Main.is_gap (Tokenizer.state (Main.tokenizer s1)) /\
  (Main.edge p = RISE <-> Main.is_mark (Main.sym p) = true) /\
  (Main.edge p = FALL -> Tokenizer.state (Main.tokenizer s1) = SHORT).
Proof.
  destruct s as [[es et el] [ts tt] ds us].
  cbn [Main.edge_detector Main.tokenizer EdgeDetector.state Tokenizer.state].
  intros A. unfold Main.loop_body.
  cbn [Main.edge_detector Main.tokenizer Main.decoder Main.uart].
  unfold EdgeDetector.get_edge. cbn [EdgeDetector.state EdgeDetector.timeout EdgeDetector.led].
  destruct es, ts; try discriminate A;
    destruct (Main.key_down (Main.PINB r));
    try destruct (expired (Main.tics_get_edge r) et);
    cbn [negb tokenize Tokenizer.state Tokenizer.timeout];
    try destruct (expired (Main.tics_tokenize r) tt);
    cbn [decode]; cbn [fst snd Main.edge Main.sym Main.edge_detector Main.tokenizer
                       EdgeDetector.state Tokenizer.state is_up Main.is_gap Main.is_mark];
    repeat split; intros; try discriminate; auto.
Qed.

(** X5: over any sequence of port and clock readings from the initial
    state, the edge detector is [UP] exactly when the tokenizer is in
    [INTERWORD], [INTERELEMENT] or [INTERCHARACTER]; so no edge is dropped:
    a pass emits [DOT] or [DASH] if and only if [get_edge] reported [RISE]
    in that pass, and every [FALL] puts the tokenizer in [SHORT]. *)
Theorem edges_and_marks_in_step :
  forall (m : mcu) (d : delays) (rs : list Main.reading),
    Forall (fun p => Main.edge p = RISE <-> Main.is_mark (Main.sym p) = true)
           (fst (Main.run m d rs Main.init)) /\
    is_up (EdgeDetector.state (Main.edge_detector (snd (Main.run m d rs Main.init))))
    = Main.is_gap (Tokenizer.state (Main.tokenizer (snd (Main.run m d rs Main.init)))).
Proof.
  intros m d rs.
  assert (G : forall s,
             is_up (EdgeDetector.state (Main.edge_detector s))
             = Main.is_gap (Tokenizer.state (Main.tokenizer s)) ->
             Forall (fun p => Main.edge p = RISE <-> Main.is_mark (Main.sym p) = true)
                    (fst (Main.run m d rs s)) /\
             is_up (EdgeDetector.state (Main.edge_detector (snd (Main.run m d rs s))))
             = Main.is_gap (Tokenizer.state (Main.tokenizer (snd (Main.run m d rs s))))).
  { induction rs as [|r rs IH]; intros s A.
    - split; [constructor|exact A].
    - cbn [Main.run].
      destruct (loop_body_in_step m d r s A) as (A1 & E & _).
      destruct (Main.loop_body m d r s) as [p s1]. cbn [fst snd] in *.
      destruct (IH s1 A1) as [I1 I2].
      destruct (Main.run m d rs s1) as [ps s2]. cbn [fst snd] in *.
      split; [constructor; assumption|exact I2]. }
  apply G. reflexivity.
Qed.

(** ** A key press seen through the debounce *)

(** A mark polled once per tic, for any delays: a dot if the rising edge
    is polled at most [delay_2u] tics after the falling one, a dash
    otherwise. *)
Lemma mark_outcome (d : delays) (now len : Z) (s : Tokenizer.t) :
  1 <= delay_2u d <= 32767 -> 0 <= now < 65536 -> 1 <= len ->
  Main.is_gap (Tokenizer.state s) = true ->
  outcome d (mark now len) s
  = ([if len <=? delay_2u d then DOT else DASH],
     Tokenizer.mk INTERELEMENT (uint16 (run_tics (Z.to_nat len) now + delay_2u d))).
Proof.
  intros R Hnow Hlen Hs.
  assert (G : Tokenizer.state s = INTERWORD \/ Tokenizer.state s = INTERELEMENT \/
              Tokenizer.state s = INTERCHARACTER)
    by (destruct (Tokenizer.state s); try discriminate Hs; auto).
  unfold mark.
  change ((FALL, now) :: idle now (Z.to_nat (len - 1))
            ++ [(RISE, run_tics (Z.to_nat len) now)])
    with ([(FALL, now)] ++ idle now (Z.to_nat (len - 1))
            ++ [(RISE, run_tics (Z.to_nat len) now)]).
  rewrite !outcome_app, !outcome_one, (fall_in_gap _ _ _ G).
  cbn [fst snd].
  rewrite (idle_SHORT_now d now _ R Hnow).
  cbn [fst snd app].
  rewrite Z2Nat.id by lia.
  destruct (Z.ltb_spec (len - 1) (delay_2u d));
    destruct (Z.leb_spec len (delay_2u d)); try lia; reflexivity.
Qed.

Lemma key_down_port (k : bool) : Main.key_down (Main.port k) = k.
Proof. now destruct k. Qed.

(** With the same clock value read in [get_edge] and [tokenize], the loop
    is the edge detector followed by the tokenizer. *)
Lemma main_run_read (m : mcu) (d : delays) (polls : list (Z * bool)) :
  forall s : Main.t,
    let er := EdgeDetector.run m polls (Main.edge_detector s) in
    let tr := Tokenizer.run d (combine (fst er) (map fst polls)) (Main.tokenizer s) in
    map Main.sym (fst (Main.run m d (map Main.read polls) s)) = fst tr /\
    Main.tokenizer (snd (Main.run m d (map Main.read polls) s)) = snd tr /\
    Main.edge_detector (snd (Main.run m d (map Main.read polls) s)) = snd er.
Proof.
  induction polls as [|[now k] polls IH]; intros s; [now repeat split|].
  cbn [map Main.run EdgeDetector.run]. unfold Main.loop_body.
  cbn [Main.read Main.PINB Main.tics_get_edge Main.tics_tokenize fst snd].
  rewrite key_down_port.
  destruct (EdgeDetector.get_edge m now k (Main.edge_detector s)) as [e es].
  destruct (tokenize d now e (Main.tokenizer s)) as [y ts] eqn:T.
  destruct (decode y (Main.decoder s)) as [ch ds].
  specialize (IH (Main.mk es ts ds
                    (if ch =? 0 then Main.uart s else uart_putchar ch (Main.uart s)))).
  cbn [Main.edge_detector Main.tokenizer] in IH. cbn zeta in IH.
  destruct (Main.run m d (map Main.read polls) _) as [ps s2].
  destruct (EdgeDetector.run m polls es) as [el e2].
  cbn [fst snd combine map Tokenizer.run Main.sym] in *.
  rewrite T.
  destruct (Tokenizer.run d (combine el (map fst polls)) ts) as [ys t2].
  cbn [fst snd] in *. destruct IH as (I1 & I2 & I3).
  repeat split; congruence.
Qed.

Lemma steady_DOWN (m : mcu) (now tmo : Z) (l : bool) (n : nat) :
  EdgeDetector.run m (steady true now n) (EdgeDetector.mk EdgeDetector.DOWN tmo l)
  = (repeat NO_EDGE n, EdgeDetector.mk EdgeDetector.DOWN tmo l).
Proof.
  revert now. induction n as [|n IH]; intros now; [reflexivity|].
  cbn [steady EdgeDetector.run EdgeDetector.get_edge EdgeDetector.state negb].
  now rewrite IH.
Qed.

Lemma idle_steady (k : bool) (n : nat) :
  forall now, combine (repeat NO_EDGE n) (map fst (steady k now n)) = idle now n.
Proof.
  induction n as [|n IH]; intros now; [reflexivity|].
  cbn [steady repeat map combine idle fst]. now rewrite IH.
Qed.

Lemma idle_app (a b : nat) :
  forall now, idle now (a + b) = idle now a ++ idle (run_tics a now) b.
Proof.
  induction a as [|a IH]; intros now; [reflexivity|].
  cbn [Nat.add idle app run_tics]. now rewrite IH.
Qed.

Lemma combine_app {A B : Type} (l1 l2 : list A) (t1 t2 : list B) :
  length l1 = length t1 ->
  combine (l1 ++ l2) (t1 ++ t2) = combine l1 t1 ++ combine l2 t2.
Proof.
  revert t1. induction l1 as [|x l1 IH]; intros [|y t1] H; try discriminate H.
  - reflexivity.
  - cbn [app combine]. rewrite IH; [reflexivity|]. now injection H.
Qed.

Lemma steady_length (k : bool) (n : nat) : forall now, length (steady k now n) = n.
Proof.
  induction n as [|n IH]; intros now; [reflexivity|].
  cbn [steady length]. now rewrite IH.
Qed.

Lemma steady_last (k : bool) (n : nat) :
  forall now, steady k now (S n) = steady k now n ++ [(run_tics (S n) now, k)].
Proof.
  induction n as [|n IH]; intros now; [reflexivity|].
  change (steady k now (S (S n)))
    with ((TIM0_COMPA_vect now, k) :: steady k (TIM0_COMPA_vect now) (S n)).
  rewrite IH. reflexivity.
Qed.

Lemma run_tics_add (a b : nat) :
  forall now, run_tics (a + b) now = run_tics b (run_tics a now).
Proof.
  induction a as [|a IH]; intros now; [reflexivity|].
  cbn [Nat.add run_tics]. apply IH.
Qed.

Lemma run_tics_range (n : nat) (now : Z) :
  0 <= now < 65536 -> 0 <= run_tics n now < 65536.
Proof. intros H. rewrite run_tics_spec by assumption. apply uint16_range. Qed.

(** What the edge detector reports during a press, and what the tokenizer
    is polled with: a mark that is longer than the press by the debounce
    time. *)
Lemma press_is_mark (m : mcu) (now D : Z) (s : EdgeDetector.t) :
  0 <= now < 65536 -> 1 <= D ->
  EdgeDetector.state s = EdgeDetector.UP ->
  let polls :=
    (now, true) :: steady true now (Z.to_nat (D - 1))
      ++ steady false (run_tics (Z.to_nat (D - 1)) now) (S (Z.to_nat (DEBOUNCE_TIME m))) in
  combine (fst (EdgeDetector.run m polls s)) (map fst polls)
  = mark now (D + DEBOUNCE_TIME m) /\
  EdgeDetector.state (snd (EdgeDetector.run m polls s)) = EdgeDetector.UP.
Proof.
  intros Hnow HD Hs polls. subst polls.
  pose proof (DEBOUNCE_TIME_value m) as V. rewrite V.
  change (Z.to_nat 96) with 96%nat.
  set (a := Z.to_nat (D - 1)).
  set (t1 := run_tics a now).
  assert (R1 : 0 <= t1 < 65536) by (apply run_tics_range; assumption).
  change ((now, true) :: steady true now a ++ steady false t1 97)
    with ([(now, true)] ++ steady true now a ++ steady false t1 97).
  rewrite !edge_run_app.
  assert (E0 : EdgeDetector.run m [(now, true)] s
               = ([FALL], EdgeDetector.mk EdgeDetector.DOWN (EdgeDetector.timeout s) true)).
  { cbn [EdgeDetector.run]. unfold EdgeDetector.get_edge. now rewrite Hs. }
  rewrite E0. cbn [fst snd]. rewrite steady_DOWN. cbn [fst snd].
  assert (E2 : EdgeDetector.run m (steady false t1 97)
                 (EdgeDetector.mk EdgeDetector.DOWN (EdgeDetector.timeout s) true)
               = (repeat NO_EDGE 96 ++ [RISE],
                  EdgeDetector.mk EdgeDetector.UP
                    (uint16 (TIM0_COMPA_vect t1 + DEBOUNCE_TIME m)) false)).
  { change (steady false t1 97)
      with ([(TIM0_COMPA_vect t1, false)] ++ steady false (TIM0_COMPA_vect t1) 96).
    rewrite edge_run_app.
    cbn [EdgeDetector.run EdgeDetector.get_edge EdgeDetector.state negb
         EdgeDetector.led fst snd].
    pose proof (steady_BOUNCING m (TIM0_COMPA_vect t1) true 96) as B.
    rewrite Z.add_0_r, (uint16_small (TIM0_COMPA_vect t1)) in B
      by (apply uint16_range).
    rewrite B. reflexivity. }
  rewrite E2. cbn [fst snd]. split; [|reflexivity].
  unfold mark.
  replace (Z.to_nat (D + 96 - 1)) with (a + 96)%nat by lia.
  replace (Z.to_nat (D + 96)) with (a + 97)%nat by lia.
  rewrite idle_app. fold t1.
  rewrite (steady_last false 96 t1).
  rewrite !map_app. cbn [map fst app combine]. f_equal.
  rewrite combine_app
    by (rewrite repeat_length, length_map, steady_length; reflexivity).
  rewrite combine_app
    by (rewrite repeat_length, length_map, steady_length; reflexivity).
  rewrite !idle_steady. cbn [combine].
  rewrite <- app_assoc. unfold t1. now rewrite <- run_tics_add.
Qed.

(** X14: a key press polled once per tic from a resting state, closed for
    [D] tics and then released, reaches the tokenizer as a mark of
    [D + DEBOUNCE_TIME] tics: the loop emits exactly one symbol, at the
    pass in which the debounce time runs out, a dot if
    [D + DEBOUNCE_TIME <= 2u] and a dash otherwise; it leaves the edge
    detector [UP] and the tokenizer in [INTERELEMENT]. *)
Theorem key_press_classified :
  forall (m : mcu) (u now D : Z) (s : Main.t),
    1 <= u <= 10922 -> 0 <= now < 65536 -> 1 <= D ->
    EdgeDetector.state (Main.edge_detector s) = EdgeDetector.UP ->
    Main.is_gap (Tokenizer.state (Main.tokenizer s)) = true ->
    let r := Main.run m (delays_of_dot u) (Main.press m now D) s in
    emitted (map Main.sym (fst r))
    = [if D + DEBOUNCE_TIME m <=? 2 * u then DOT else DASH] /\
    EdgeDetector.state (Main.edge_detector (snd r)) = EdgeDetector.UP /\
    Tokenizer.state (Main.tokenizer (snd r)) = INTERELEMENT.
Proof.
  intros m u now D s Hu Hnow HD He Ht r. subst r. unfold Main.press.
  destruct (delays_of_dot_values u ltac:(lia)) as [D2 _].
  destruct (main_run_read m (delays_of_dot u)
              ((now, true) :: steady true now (Z.to_nat (D - 1))
                 ++ steady false (run_tics (Z.to_nat (D - 1)) now)
                      (S (Z.to_nat (DEBOUNCE_TIME m)))) s) as (S1 & S2 & S3).
  destruct (press_is_mark m now D (Main.edge_detector s) Hnow HD He) as [P1 P2].
  cbn zeta in *. rewrite S1, S2, S3, P1, P2.
  pose proof (DEBOUNCE_TIME_value m) as V.
  pose proof (mark_outcome (delays_of_dot u) now (D + DEBOUNCE_TIME m)
                (Main.tokenizer s) ltac:(lia) Hnow ltac:(lia) Ht) as M.
  pose proof (f_equal fst M) as M1. pose proof (f_equal snd M) as M2.
  unfold outcome in M1, M2. cbn [fst snd] in M1, M2.
  rewrite M1, M2, D2. repeat split; reflexivity.
Qed.

(** At 18 wpm on the ATtiny13A (2u = 1280 tics): a press of 1184 tics is
    still a dot, one of 1185 tics is a dash. *)
Lemma key_press_classified_witness :
  emitted (map Main.sym
             (fst (Main.run ATtiny13A (delays_of_dot 640)
                     (Main.press ATtiny13A 65000 1184) Main.init))) = [DOT] /\
  emitted (map Main.sym
             (fst (Main.run ATtiny13A (delays_of_dot 640)
                     (Main.press ATtiny13A 65000 1185) Main.init))) = [DASH].
Proof.
  split.
  - apply (key_press_classified ATtiny13A 640 65000 1184 Main.init
             ltac:(lia) ltac:(lia) ltac:(lia) eq_refl eq_refl).
  - apply (key_press_classified ATtiny13A 640 65000 1185 Main.init
             ltac:(lia) ltac:(lia) ltac:(lia) eq_refl eq_refl).
Defined.

(** ** The decoder *)

Lemma lookup_least (left : nat) (i code j : Z) :
  i <= j < lookup left i code -> nth (Z.to_nat j) morse_code 0 <> code.
Proof.
  revert i. induction left as [|left IH]; intros i H.
  - simpl in H. lia.
  - cbn [lookup] in H.
    destruct (Z.eqb_spec (nth (Z.to_nat i) morse_code 0) code) as [E|E]; [lia|].
    destruct (Z.eq_dec i j) as [->|N]; [exact E|].
    apply (IH (i + 1)). lia.
Qed.

(** X6: [code_to_char] returns ['#'] exactly for the code number 0 and for
    the code numbers that are not in the table; for a nonzero table entry it
    returns the character of the entry's index, ['_'] for index 0 and
    [' ' + i] otherwise. *)
Theorem code_to_char_invalid_iff :
  (forall code : Z,
      code_to_char code = chr "#" <-> code = 0 \/ ~ In code morse_code) /\
  (forall i : nat,
      (i < 59)%nat -> nth i morse_code 0 <> 0 ->
      code_to_char (nth i morse_code 0) = table_char (Z.of_nat i)).
Proof.
  split; [|intros i Hi Hn; now apply entry_ok_spec].
  intros code.
  destruct (Z.eq_dec code 0) as [->|Hc]; [split; [now left|reflexivity]|].
  pose proof (lookup_bounds (Z.to_nat CODE_LENGTH) 0 code) as B.
  pose proof (lookup_found (Z.to_nat CODE_LENGTH) 0 code) as F.
  pose proof (lookup_least (Z.to_nat CODE_LENGTH) 0 code) as L.
  unfold code_to_char.
  remember (lookup (Z.to_nat CODE_LENGTH) 0 code) as i eqn:Hi. clear Hi.
  unfold CODE_LENGTH in *. change (Z.of_nat (Z.to_nat 59)) with 59 in *.
  split.
  - destruct (Z.eqb_spec i 0); [vm_compute; discriminate|].
    destruct (Z.ltb_spec i 59).
    + vm_compute chr. intros E. left. assert (i = 3) by lia. subst i.
      symmetry. apply F. lia.
    + intros _. right. intros HIn.
      apply (In_nth _ _ 0) in HIn as (k & Hk & Ek).
      change (length morse_code) with 59%nat in Hk.
      apply (L (Z.of_nat k)); [lia|]. now rewrite Nat2Z.id.
  - intros [->|HN]; [contradiction|].
    assert (59 <= i).
    { destruct (Z.lt_ge_cases i 59) as [H|H]; [|exact H].
      exfalso. apply HN. rewrite <- (F ltac:(lia)).
      apply nth_In. change (length morse_code) with 59%nat. lia. }
    destruct (Z.eqb_spec i 0); [lia|].
    destruct (Z.ltb_spec i 59); [lia|reflexivity].
Qed.

(** A code number that is in no table entry, and the entry of the
    letter L. *)
Lemma code_to_char_invalid_iff_witness :
  code_to_char 4 = chr "#" /\ code_to_char (nth 44 morse_code 0) = chr "L".
Proof.
  split.
  - apply (proj1 code_to_char_invalid_iff 4). right. vm_compute. intuition discriminate.
  - apply (proj2 code_to_char_invalid_iff 44%nat); [lia|vm_compute; discriminate].
Defined.

(** X7: in every pass of the main loop, [decode] returns a character
    (nonzero) if and only if the symbol is [END_OF_CHAR] or [END_OF_WORD];
    in those passes, and in no others, the character is loaded into the
    UART by [uart_putchar]. *)
Theorem character_per_end_symbol :
  forall (m : mcu) (d : delays) (r : Main.reading) (s : Main.t),
    let p := fst (Main.loop_body m d r s) in
    let s1 := snd (Main.loop_body m d r s) in
    (Main.c p <> 0 <-> Main.sym p = END_OF_CHAR \/ Main.sym p = END_OF_WORD) /\
    (Main.c p = 0 -> Main.uart s1 = Main.uart s) /\
    (Main.c p <> 0 -> Main.uart s1 = uart_putchar (Main.c p) (Main.uart s)).
Proof.
  intros m d r s. unfold Main.loop_body.
  destruct (EdgeDetector.get_edge _ _ _ _) as [e es].
  destruct (tokenize _ _ _ _) as [y ts].
  destruct (decode y (Main.decoder s)) as [ch ds] eqn:Dc.
  cbn [fst snd Main.c Main.sym Main.uart].
  assert (K : ch <> 0 <-> y = END_OF_CHAR \/ y = END_OF_WORD).
  { destruct y; cbn [decode] in Dc; injection Dc as <- _;
      try (split; [intros H; now elim H | intros [H|H]; discriminate H]).
    - split; [auto|]. intros _.
      destruct (code_to_char_cases (code (Main.decoder s))) as [E|[E|(i & Hi & E)]];
        rewrite E; vm_compute chr; lia.
    - split; [auto|]. intros _. vm_compute. discriminate. }
  split; [exact K|].
  destruct (Z.eqb_spec ch 0); split; intros; try contradiction; try reflexivity.
Qed.

Lemma shl1_uint16 (x : Z) : shl1 (uint16 x) = uint16 (2 * x).
Proof.
  unfold shl1, uint16. rewrite Z.shiftl_mul_pow2 by lia. change (2 ^ 1) with 2.
  rewrite Zmult_mod_idemp_l. f_equal. lia.
Qed.

Lemma marks_bitmask (ys : list symbol_t) :
  Forall (fun y => Main.is_mark y = true) ys ->
  forall (s : Decoder.t) (k : Z),
    0 <= k -> bitmask s = uint16 (2 ^ k) ->
    bitmask (snd (Decoder.run ys s)) = uint16 (2 ^ (k + bit_count ys)).
Proof.
  induction 1 as [|y ys Hy _ IH]; intros s k Hk Hb.
  - cbn. now rewrite Z.add_0_r.
  - cbn [Decoder.run].
    destruct y; try discriminate Hy; cbn [decode bit_count].
    + specialize (IH (Decoder.mk (Z.lor (code s) (bitmask s)) (shl1 (bitmask s))) (k + 1)).
      destruct (Decoder.run ys _) as [cs s2]. cbn [snd] in *.
      rewrite IH; [f_equal; f_equal; lia|lia|].
      cbn [bitmask]. rewrite Hb, shl1_uint16. f_equal.
      rewrite Z.pow_add_r by lia. change (2 ^ 1) with 2. lia.
    + specialize (IH (Decoder.mk (Z.lor (code s) (shl1 (bitmask s)))
                        (shl1 (shl1 (bitmask s)))) (k + 2)).
      destruct (Decoder.run ys _) as [cs s2]. cbn [snd] in *.
      rewrite IH; [f_equal; f_equal; lia|lia|].
      cbn [bitmask]. rewrite Hb, !shl1_uint16. f_equal.
      rewrite Z.pow_add_r by lia. change (2 ^ 2) with 4. lia.
Qed.

Lemma marks_after_overflow (zs : list symbol_t) :
  Forall (fun y => Main.is_mark y = true) zs ->
  forall s : Decoder.t,
    bitmask s = 0 ->
    Decoder.run zs s = (repeat 0 (length zs), s).
Proof.
  induction 1 as [|y zs Hy _ IH]; intros s Hb; [reflexivity|].
  destruct s as [c b]. cbn [bitmask] in Hb. subst b.
  cbn [Decoder.run length repeat].
  destruct y; try discriminate Hy; cbn [decode code bitmask];
    change (shl1 0) with 0; rewrite Z.lor_0_r, IH by reflexivity; reflexivity.
Qed.

Lemma marks_no_char (ys : list symbol_t) :
  Forall (fun y => Main.is_mark y = true) ys ->
  forall s : Decoder.t, fst (Decoder.run ys s) = repeat 0 (length ys).
Proof.
  induction 1 as [|y ys Hy _ IH]; intros s; [reflexivity|].
  cbn [Decoder.run length repeat].
  destruct y; try discriminate Hy; cbn [decode];
    match goal with
    | |- context [Decoder.run ys ?s1] =>
        specialize (IH s1); destruct (Decoder.run ys s1)
    end; cbn [fst] in *; now rewrite IH.
Qed.

(** X8: after a run of dots and dashes from the initial state the bit mask
    is 2 to the number of bit positions used (one per dot, two per dash),
    cut to 16 bits; so once 16 positions are used the mask is 0 and every
    further dot or dash leaves the code number as it is: the tail of an
    overlong character is dropped without notice. *)
Theorem marks_beyond_16_bits :
  forall ys zs : list symbol_t,
    Forall (fun y => Main.is_mark y = true) ys ->
    Forall (fun y => Main.is_mark y = true) zs ->
    bitmask (snd (Decoder.run ys Decoder.init)) = uint16 (2 ^ bit_count ys) /\
    (16 <= bit_count ys ->
     Decoder.run (ys ++ zs) Decoder.init
     = (repeat 0 (length ys + length zs), snd (Decoder.run ys Decoder.init))).
Proof.
  intros ys zs Hy Hz.
  pose proof (marks_bitmask ys Hy Decoder.init 0 ltac:(lia) eq_refl) as B.
  rewrite Z.add_0_l in B. split; [exact B|].
  intros H16.
  assert (Z0 : bitmask (snd (Decoder.run ys Decoder.init)) = 0).
  { rewrite B. unfold uint16.
    replace (bit_count ys) with (bit_count ys - 16 + 16) by lia.
    rewrite Z.pow_add_r by lia. change (2 ^ 16) with 65536.
    apply Z.mod_mul. lia. }
  rewrite decoder_run_app, (marks_after_overflow zs Hz _ Z0).
  cbn [fst snd]. now rewrite (marks_no_char ys Hy), repeat_app.
Qed.

(** Eight dashes fill the 16 bits; the dot and the dash after them are
    lost. *)
Lemma marks_beyond_16_bits_witness :
  Decoder.run (repeat DASH 8 ++ [DOT; DASH]) Decoder.init
  = (repeat 0 (8 + 2), Decoder.mk 43690 0).
Proof.
  apply (proj2 (marks_beyond_16_bits (repeat DASH 8) [DOT; DASH]
                  ltac:(repeat constructor) ltac:(repeat constructor))).
  vm_compute. discriminate.
Defined.

(** ** The table generator *)

Lemma lor_ldiff (c b : Z) : Z.lor c b = c + Z.ldiff b c.
Proof.
  rewrite Z.add_nocarry_lxor by (rewrite Z.land_comm; apply Z.land_ldiff).
  rewrite Z.lxor_lor by (rewrite Z.land_comm; apply Z.land_ldiff).
  apply Z.bits_inj'. intros i Hi.
  rewrite !Z.lor_spec, Z.ldiff_spec.
  now destruct (Z.testbit c i), (Z.testbit b i).
Qed.

Lemma lor_ge (c b : Z) : 0 <= b -> c <= Z.lor c b.
Proof.
  intros Hb. rewrite lor_ldiff.
  assert (0 <= Z.ldiff b c) by (apply Z.ldiff_nonneg; auto). lia.
Qed.

Lemma lor_pow2 (c k : Z) : 0 <= k -> 0 <= c < 2 ^ k -> Z.lor c (2 ^ k) = c + 2 ^ k.
Proof.
  intros Hk Hc. rewrite lor_ldiff. f_equal.
  apply Z.bits_inj'. intros i Hi.
  rewrite Z.ldiff_spec, Z.pow2_bits_eqb by assumption.
  destruct (Z.eqb_spec k i) as [<-|N]; [|reflexivity].
  destruct (Z.eq_dec c 0) as [->|Hz]; [now rewrite Z.bits_0|].
  rewrite Z.bits_above_log2; [reflexivity|lia|].
  apply Z.log2_lt_pow2; lia.
Qed.

(** A code number that has left the 16-bit range never comes back. *)
Lemma translate_overflow (s : String.string) :
  forall c b : Z, 65536 <= c -> 0 <= b -> translate s c b = None.
Proof.
  induction s as [|p s IH]; intros c b Hc Hb; cbn [translate].
  - unfold UINT16_MAX. destruct (Z.gtb_spec c 65535); [reflexivity|lia].
  - assert (U : forall z, 0 <= uint z) by (intros z; apply Z.mod_pos_bound; lia).
    destruct (Ascii.eqb p "-").
    + apply IH; [|apply U]. pose proof (lor_ge c (uint (Z.shiftl b 1)) (U _)). lia.
    + destruct (Ascii.eqb p "."); cbn [negb]; [|reflexivity].
      apply IH; [|apply U]. pose proof (lor_ge c b Hb). lia.
Qed.

Lemma translate_foreign (s : String.string) :
  dots_dashes_only s = false -> forall c b : Z, translate s c b = None.
Proof.
  induction s as [|p s IH]; intros H c b; [discriminate H|].
  cbn [translate dots_dashes_only] in *.
  destruct (Ascii.eqb p "-"); [now apply IH|].
  destruct (Ascii.eqb p "."); cbn [negb orb andb] in *; [now apply IH|reflexivity].
Qed.

Lemma uint_shiftl_pow2 (k : Z) :
  0 <= k <= 17 -> uint (Z.shiftl (2 ^ k) 1) = 2 ^ (k + 1).
Proof.
  intros Hk. rewrite Z.shiftl_mul_pow2, <- Z.pow_add_r by lia.
  unfold uint. apply Z.mod_small. split; [apply Z.pow_nonneg; lia|].
  change 4294967296 with (2 ^ 32). apply Z.pow_lt_mono_r; lia.
Qed.

Lemma code_number_nonneg (s : String.string) : 0 <= code_number s.
Proof.
  induction s as [|p s IH]; cbn [code_number]; [lia|].
  destruct (Ascii.eqb p "-"); lia.
Qed.

Lemma bit_count_keyed_nonneg (s : String.string) : 0 <= bit_count (keyed s).
Proof.
  induction s as [|p s IH]; cbn [keyed bit_count]; [lia|].
  destruct (Ascii.eqb p "-"); cbn [bit_count]; lia.
Qed.

(** The loop of the generator, entered with bit mask [2 ^ k] and a code
    number below it. *)
Lemma translate_spec (s : String.string) :
  dots_dashes_only s = true ->
  forall k c : Z,
    0 <= k <= 16 -> 0 <= c < 2 ^ k ->
    translate s c (2 ^ k)
    = if k + bit_count (keyed s) <=? 16
      then Some (c + 2 ^ k * code_number s)
      else None.
Proof.
  induction s as [|p s IH]; intros V k c Hk Hc.
  - cbn [translate keyed bit_count code_number].
    assert (2 ^ k <= 2 ^ 16) by (apply Z.pow_le_mono_r; lia).
    change (2 ^ 16) with 65536 in *. unfold UINT16_MAX.
    destruct (Z.gtb_spec c 65535); [lia|].
    destruct (Z.leb_spec (k + 0) 16); [|lia].
    f_equal. lia.
  - cbn [translate keyed bit_count code_number dots_dashes_only] in *.
    apply andb_prop in V as [Vp V]. specialize (IH V).
    pose proof (bit_count_keyed_nonneg s) as Bn.
    pose proof (code_number_nonneg s) as Cn.
    assert (P0 : 0 < 2 ^ k) by (apply Z.pow_pos_nonneg; lia).
    assert (P1 : 2 ^ (k + 1) = 2 * 2 ^ k)
      by (rewrite Z.pow_add_r by lia; change (2 ^ 1) with 2; lia).
    assert (P2 : 2 ^ (k + 2) = 4 * 2 ^ k)
      by (rewrite Z.pow_add_r by lia; change (2 ^ 2) with 4; lia).
    assert (P15 : 15 <= k -> 32768 <= 2 ^ k).
    { intros H. change 32768 with (2 ^ 15). apply Z.pow_le_mono_r; lia. }
    destruct (Ascii.eqb p "-") eqn:Ep.
    + cbn [bit_count]. rewrite !uint_shiftl_pow2 by lia.
      rewrite lor_pow2 by lia.
      replace (k + 1 + 1) with (k + 2) by lia.
      destruct (Z.le_gt_cases (k + 2) 16) as [H|H].
      * rewrite IH by lia.
        destruct (Z.leb_spec (k + 2 + bit_count (keyed s)) 16);
          destruct (Z.leb_spec (k + (2 + bit_count (keyed s))) 16); try lia;
          [f_equal; nia|reflexivity].
      * rewrite translate_overflow
          by (try (apply Z.pow_nonneg; lia); specialize (P15 ltac:(lia)); lia).
        destruct (Z.leb_spec (k + (2 + bit_count (keyed s))) 16); [lia|reflexivity].
    + cbn [orb] in Vp. rewrite Vp. cbn [negb bit_count].
      rewrite uint_shiftl_pow2 by lia. rewrite lor_pow2 by lia.
      destruct (Z.le_gt_cases (k + 1) 16) as [H|H].
      * rewrite IH by lia.
        destruct (Z.leb_spec (k + 1 + bit_count (keyed s)) 16);
          destruct (Z.leb_spec (k + (1 + bit_count (keyed s))) 16); try lia;
          [f_equal; nia|reflexivity].
      * assert (k = 16) by lia. subst k.
        rewrite translate_overflow
          by (try (apply Z.pow_nonneg; lia); change (2 ^ 16) with 65536 in *; lia).
        destruct (Z.leb_spec (16 + (1 + bit_count (keyed s))) 16); [lia|reflexivity].
Qed.

Lemma length_keyed_le_bits (s : String.string) :
  Z.of_nat (length (keyed s)) <= bit_count (keyed s).
Proof.
  induction s as [|p s IH]; cbn [keyed length bit_count]; [lia|].
  destruct (Ascii.eqb p "-"); cbn [bit_count]; lia.
Qed.

(** Reading the string back off the code number. *)
Lemma dots_and_dashes_code_number (s : String.string) :
  dots_dashes_only s = true ->
  forall bits : nat,
    (length (keyed s) <= bits)%nat ->
    dots_and_dashes bits (code_number s) = s.
Proof.
  induction s as [|p s IH]; intros V bits Hb.
  - destruct bits; reflexivity.
  - cbn [dots_dashes_only keyed length code_number] in *.
    apply andb_prop in V as [Vp V].
    destruct bits as [|bits]; [lia|].
    pose proof (code_number_nonneg s) as Cn.
    cbn [dots_and_dashes].
    destruct (Ascii.eqb_spec p "-") as [->|Np].
    + destruct (Z.eqb_spec (2 + 4 * code_number s) 0); [lia|].
      replace (Z.odd (2 + 4 * code_number s)) with false
        by (symmetry; replace (2 + 4 * code_number s)
              with (0 + 2 * (1 + 2 * code_number s)) by lia;
            now rewrite Z.odd_add_mul_2).
      f_equal. rewrite Z.shiftr_div_pow2 by lia. change (2 ^ 2) with 4.
      replace ((2 + 4 * code_number s) / 4) with (code_number s)
        by (apply (Z.div_unique _ _ _ 2); lia).
      apply IH; [exact V|lia].
    + cbn [orb] in Vp. apply Ascii.eqb_eq in Vp. subst p.
      destruct (Z.eqb_spec (1 + 2 * code_number s) 0); [lia|].
      rewrite Z.odd_add_mul_2. cbn [Z.odd].
      f_equal. rewrite Z.shiftr_div_pow2 by lia. change (2 ^ 1) with 2.
      replace ((1 + 2 * code_number s) / 2) with (code_number s)
        by (apply (Z.div_unique _ _ _ 1); lia).
      apply IH; [exact V|lia].
Qed.

Lemma translate_some (s : String.string) (n : Z) :
  translate s 0 1 = Some n ->
  dots_dashes_only s = true /\ bit_count (keyed s) <= 16 /\ n = code_number s.
Proof.
  intros H.
  destruct (dots_dashes_only s) eqn:V;
    [|now rewrite translate_foreign in H by assumption].
  pose proof (translate_spec s V 0 0 ltac:(lia) ltac:(change (2 ^ 0) with 1; lia)) as T.
  change (2 ^ 0) with 1 in T. rewrite T in H.
  destruct (Z.leb_spec (0 + bit_count (keyed s)) 16); [|discriminate H].
  assert (E : n = 0 + 1 * code_number s) by congruence.
  split; [reflexivity|]. split; lia.
Qed.

Lemma translate_le (s : String.string) :
  forall c b n : Z, translate s c b = Some n -> n <= 65535.
Proof.
  induction s as [|p s IH]; intros c b n H; cbn [translate] in H.
  - unfold UINT16_MAX in H. destruct (Z.gtb_spec c 65535); [discriminate H|].
    injection H as <-. lia.
  - destruct (Ascii.eqb p "-"); [now apply IH in H|].
    destruct (Ascii.eqb p "."); cbn [negb] in H; [now apply IH in H|discriminate H].
Qed.

Lemma translate_range (s : String.string) (n : Z) :
  translate s 0 1 = Some n -> 0 <= n < 65536.
Proof.
  intros H. pose proof (translate_le s 0 1 n H).
  destruct (translate_some s n H) as (_ & _ & ->).
  pose proof (code_number_nonneg s). lia.
Qed.

(** X9: a code number the generator produces is a 16-bit number from
    which the dot/dash string can be read back bit by bit, least
    significant bit first; so no two strings get the same code number. *)
Theorem translate_unambiguous :
  forall (s : String.string) (n : Z),
    translate s 0 1 = Some n ->
    0 <= n <= 65535 /\
    dots_and_dashes 16 n = s /\
    forall s' : String.string, translate s' 0 1 = Some n -> s' = s.
Proof.
  intros s n H.
  assert (R : forall t m, translate t 0 1 = Some m ->
                          0 <= m /\ dots_and_dashes 16 m = t).
  { intros t m Ht. destruct (translate_some t m Ht) as (V & B & ->).
    split; [apply code_number_nonneg|].
    apply dots_and_dashes_code_number; [exact V|].
    pose proof (length_keyed_le_bits t). lia. }
  destruct (R s n H) as [Hn Hs].
  split; [|split; [exact Hs|]].
  - split; [exact Hn|].
    clear - H. revert H. generalize 0 at 1 as c. generalize 1 as b.
    induction s as [|p s IH]; intros b c H; cbn [translate] in H.
    + unfold UINT16_MAX in H. destruct (Z.gtb_spec c 65535); [discriminate H|].
      injection H as <-. lia.
    + destruct (Ascii.eqb p "-"); [now apply IH in H|].
      destruct (Ascii.eqb p "."); cbn [negb] in H; [now apply IH in H|discriminate H].
  - intros s' H'. destruct (R s' n H') as [_ Hs']. congruence.
Qed.

(** The letter Q. *)
Lemma translate_unambiguous_witness :
  dots_and_dashes 16 90 = "--.-" /\
  forall s' : String.string, translate s' 0 1 = Some 90 -> s' = "--.-".
Proof.
  destruct (translate_unambiguous "--.-" 90 eq_refl) as (_ & R & U).
  split; [exact R|exact U].
Defined.

(** X10: the generator rejects a string exactly when it holds a character
    other than ['.'] and ['-'] or takes more than 16 bit positions (one per
    dot, two per dash); the wrap-around of its 32-bit variables never lets
    an overlong string through. *)
Theorem translate_fails_iff :
  forall s : String.string,
    translate s 0 1 = None <->
    dots_dashes_only s = false \/ 16 < bit_count (keyed s).
Proof.
  intros s. split.
  - intros H. destruct (dots_dashes_only s) eqn:V; [right|now left].
    pose proof (translate_spec s V 0 0 ltac:(lia) ltac:(change (2 ^ 0) with 1; lia)) as T.
    change (2 ^ 0) with 1 in T. rewrite T in H.
    destruct (Z.leb_spec (0 + bit_count (keyed s)) 16); [discriminate H|lia].
  - intros [V|B]; [now apply translate_foreign|].
    destruct (dots_dashes_only s) eqn:V; [|now apply translate_foreign].
    pose proof (translate_spec s V 0 0 ltac:(lia) ltac:(change (2 ^ 0) with 1; lia)) as T.
    change (2 ^ 0) with 1 in T. rewrite T.
    destruct (Z.leb_spec (0 + bit_count (keyed s)) 16); [lia|reflexivity].
Qed.

(** ** The invitation *)

Lemma land_1 (x : Z) : Z.land x 1 = x mod 2.
Proof. change 1 with (Z.ones 1) at 1. now rewrite Z.land_ones by lia. Qed.

Lemma play_code_number (d : delays) (s : String.string) :
  dots_dashes_only s = true ->
  forall fuel : nat,
    code_number s < 256 -> (length (keyed s) < fuel)%nat ->
    Invite.play fuel d (code_number s) = Some (Invite.signal d s).
Proof.
  induction s as [|p s IH]; intros V fuel Hc Hf.
  - destruct fuel; [cbn in Hf; lia|reflexivity].
  - cbn [dots_dashes_only keyed length code_number Invite.signal] in *.
    apply andb_prop in V as [Vp V].
    destruct fuel as [|fuel]; [lia|].
    pose proof (code_number_nonneg s) as Cn.
    cbn [Invite.play]. rewrite land_1.
    destruct (Ascii.eqb p "-").
    + destruct (Z.eqb_spec (2 + 4 * code_number s) 0); [lia|].
      replace ((2 + 4 * code_number s) mod 2) with 0
        by (apply (Z.mod_unique _ _ (1 + 2 * code_number s)); lia).
      cbn [Z.eqb]. rewrite !Z.shiftr_div_pow2 by lia. change (2 ^ 1) with 2.
      replace ((2 + 4 * code_number s) / 2) with (1 + 2 * code_number s)
        by (apply (Z.div_unique _ _ _ 0); lia).
      unfold uint8. rewrite (Z.mod_small (1 + 2 * code_number s)) by lia.
      replace ((1 + 2 * code_number s) / 2) with (code_number s)
        by (apply (Z.div_unique _ _ _ 1); lia).
      rewrite Z.mod_small by lia. rewrite IH by (auto; lia). reflexivity.
    + destruct (Z.eqb_spec (1 + 2 * code_number s) 0); [lia|].
      replace ((1 + 2 * code_number s) mod 2) with 1
        by (apply (Z.mod_unique _ _ (code_number s)); lia).
      cbn [Z.eqb]. rewrite !Z.shiftr_div_pow2 by lia. change (2 ^ 1) with 2.
      replace ((1 + 2 * code_number s) / 2) with (code_number s)
        by (apply (Z.div_unique _ _ _ 1); lia).
      unfold uint8. rewrite Z.mod_small by lia.
      rewrite IH by (auto; lia). reflexivity.
Qed.

Lemma play_total (d : delays) :
  forallb (fun c => match Invite.play 9 d c with Some _ => true | None => false end)
          (map Z.of_nat (seq 0 256)) = true.
Proof. vm_compute. reflexivity. Qed.

(** X13: the loop of [invite] plays the dot/dash string of the code number
    it is given, a code number being one the table generator produces and
    that fits the loop's 8-bit variable: LED on for [delay_1u] per dot and
    for [delay_2u] then [delay_1u] per dash, off for [delay_1u] after each
    mark.  It ends for every 8-bit value within nine iterations, and for
    the code number 22 the signal is dash, dot, dash (the letter K). *)
Theorem invite_plays_code_number :
  forall (d : delays) (s : String.string) (code : Z) (fuel : nat),
    translate s 0 1 = Some code -> code < 256 ->
    (length (keyed s) < fuel)%nat ->
    Invite.play fuel d code = Some (Invite.signal d s) /\
    (forall c : Z, 0 <= c < 256 -> Invite.play 9 d c <> None) /\
    Invite.invite 9 d = Some (Invite.signal d "-.-").
Proof.
  intros d s code fuel H Hc Hf.
  destruct (translate_some s code H) as (V & B & ->).
  split; [now apply play_code_number|]. split; [|reflexivity].
  intros c Hr. pose proof (play_total d) as T. rewrite forallb_forall in T.
  specialize (T c). destruct (Invite.play 9 d c); [discriminate|].
  assert (false = true); [|discriminate].
  apply T. apply in_map_iff. exists (Z.to_nat c). split; [lia|]. apply in_seq. lia.
Qed.

(** The letter K at 5 wpm on the ATtiny13A. *)
Lemma invite_plays_code_number_witness :
  Invite.play 4 (mk_delays 2304 4608 6912) 22
  = Some (Invite.signal (mk_delays 2304 4608 6912) "-.-").
Proof.
  apply (invite_plays_code_number (mk_delays 2304 4608 6912) "-.-" 22 4 eq_refl);
    [lia|cbn; lia].
Defined.

(** ** The transmitter *)



(** X12: a NUL byte is not framed: the first compare match after
    [uart_putchar] of a byte that is 0 modulo 256 sends the start bit and
    disables the interrupt, and the line stays low from then on. *)
Theorem uart_nul_stops_in_start_bit :
  forall (c : Z) (s : Uart.t) (n : nat),
    uint8 c = 0 ->
    fst (line (S n) (uart_putchar c s)) = repeat false (S n) /\
    enabled (S n) (uart_putchar c s) = repeat false (S n).
Proof.
  intros c s n Hc. unfold uart_putchar. rewrite Hc.
  cbn [line enabled tick OCIE0B].
  change (TIM0_COMPB_vect (Uart.mk (int16 (Z.shiftl (Z.lor 256 0) 1)) true (TX_PIN s)))
    with (Uart.mk 256 false false).
  destruct (line_disabled n 256 false) as [L E].
  rewrite L, E. split; reflexivity.
Qed.

Lemma uart_nul_stops_in_start_bit_witness :
  fst (line 12 (uart_putchar 0 Uart.init)) = repeat false 12.
Proof.
  apply (uart_nul_stops_in_start_bit 0 Uart.init 11 eq_refl).
Defined.

(** ** Speed selection *)

(** X16: the dot time [set_delays] picks depends on the two low bits of
    the port only, the way the header of the source tabulates it: both pins
    high (floating) select 5 wpm, PB0 low 8 wpm, PB1 low 12 wpm and both low
    18 wpm; a slower speed has the longer dot. *)
Theorem speed_selection :
  forall (m : mcu) (PINB : Z),
    delay_1u (set_delays (dot_times m) PINB)
    = DOT_TIME m (match Z.testbit PINB 1, Z.testbit PINB 0 with
                  | true, true => KEY_RATE_0
                  | true, false => KEY_RATE_1
                  | false, true => KEY_RATE_2
                  | false, false => KEY_RATE_3
                  end) /\
    DOT_TIME m KEY_RATE_3 < DOT_TIME m KEY_RATE_2 < DOT_TIME m KEY_RATE_1 /\
    DOT_TIME m KEY_RATE_1 < DOT_TIME m KEY_RATE_0.
Proof.
  intros m PINB. split; [|destruct m; vm_compute; repeat split; reflexivity].
  unfold set_delays. cbn [delay_1u].
  pose proof (land_3_range PINB) as R.
  assert (B0 : Z.testbit PINB 0 = Z.testbit (Z.land PINB 3) 0)
    by (rewrite Z.land_spec; change (Z.testbit 3 0) with true; now rewrite andb_true_r).
  assert (B1 : Z.testbit PINB 1 = Z.testbit (Z.land PINB 3) 1)
    by (rewrite Z.land_spec; change (Z.testbit 3 1) with true; now rewrite andb_true_r).
  rewrite B0, B1.
  assert (C : Z.land PINB 3 = 0 \/ Z.land PINB 3 = 1 \/
              Z.land PINB 3 = 2 \/ Z.land PINB 3 = 3) by lia.
  destruct C as [C|[C|[C|C]]]; rewrite C; reflexivity.
Qed.

(** ** From the key to the character *)

Import Keyer.

Lemma edge_run_length (m : mcu) (polls : list (Z * bool)) :
  forall s, length (fst (EdgeDetector.run m polls s)) = length polls.
Proof.
  induction polls as [|[now k] polls IH]; intros s; [reflexivity|].
  cbn [EdgeDetector.run]. destruct (EdgeDetector.get_edge m now k s) as [e s1].
  specialize (IH s1). destruct (EdgeDetector.run m polls s1). cbn [fst length] in *.
  now rewrite IH.
Qed.

Lemma steady_UP (m : mcu) (s : EdgeDetector.t) (n : nat) :
  EdgeDetector.state s = EdgeDetector.UP ->
  forall now, EdgeDetector.run m (steady false now n) s = (repeat NO_EDGE n, s).
Proof.
  intros Hs. induction n as [|n IH]; intros now; [reflexivity|].
  cbn [steady EdgeDetector.run]. unfold EdgeDetector.get_edge at 1. rewrite Hs.
  now rewrite IH.
Qed.

Lemma idle_INTERWORD (d : delays) (tmo : Z) (n : nat) :
  forall now,
    outcome d (idle now n) (Tokenizer.mk INTERWORD tmo)
    = ([], Tokenizer.mk INTERWORD tmo).
Proof.
  induction n as [|n IH]; intros now; [reflexivity|].
  specialize (IH (TIM0_COMPA_vect now)). unfold outcome in *.
  cbn [idle Tokenizer.run tokenize Tokenizer.state].
  destruct (Tokenizer.run d (idle (TIM0_COMPA_vect now) n) _) as [ys s2].
  cbn [fst snd emitted filter symbol_eqb negb] in *. exact IH.
Qed.

Lemma press_end_range (m : mcu) (now D : Z) :
  0 <= now < 65536 -> 0 <= press_end m now D < 65536.
Proof. intros H. now apply run_tics_range. Qed.

Lemma keying_end_range (m : mcu) (ks : list (nat * Z)) :
  forall now, 0 <= now < 65536 -> 0 <= keying_end m now ks < 65536.
Proof.
  induction ks as [|[E D] ks IH]; intros now H; [exact H|].
  cbn [keying_end]. apply IH, press_end_range, run_tics_range, H.
Qed.

(** The edge detector turns the key readings of [keying] into the polls
    [marks] of the tokenizer. *)
Lemma keying_edges (m : mcu) (ks : list (nat * Z)) :
  Forall (fun k => 1 <= snd k) ks ->
  forall (now : Z) (s : EdgeDetector.t),
    0 <= now < 65536 -> EdgeDetector.state s = EdgeDetector.UP ->
    combine (fst (EdgeDetector.run m (keying m now ks) s)) (map fst (keying m now ks))
    = marks m now ks /\
    EdgeDetector.state (snd (EdgeDetector.run m (keying m now ks) s)) = EdgeDetector.UP.
Proof.
  induction 1 as [|[E D] ks HD _ IH]; intros now s Hnow Hs; [now split|].
  cbn [snd] in HD. cbn [keying marks].
  set (t := run_tics (S E) now).
  assert (Rt : 0 <= t < 65536) by (apply run_tics_range; exact Hnow).
  rewrite !edge_run_app, (steady_UP m s E Hs). cbn [fst snd].
  destruct (press_is_mark m t D s Rt HD Hs) as [P1 P2]. cbn zeta in P1, P2.
  fold (press_polls m t D) in P1, P2.
  destruct (IH (press_end m t D) (snd (EdgeDetector.run m (press_polls m t D) s))
              (press_end_range m t D Rt) P2) as [I1 I2].
  split; [|exact I2].
  rewrite !map_app.
  rewrite combine_app by (now rewrite repeat_length, length_map, steady_length).
  rewrite combine_app by (now rewrite edge_run_length, length_map).
  now rewrite idle_steady, P1, I1.
Qed.

(** The tokenizer turns the polls [marks] into the marks they are timed
    for. *)
Lemma marks_outcome (m : mcu) (u : Z) (ys : list symbol_t) (ks : list (nat * Z)) :
  1 <= u <= 10922 ->
  Forall2 (timed m u) ys ks ->
  Forall (fun y => Main.is_mark y = true) ys ->
  forall (now : Z) (st : Tokenizer.t),
    0 <= now < 65536 ->
    Tokenizer.state st = INTERWORD \/ st = after_mark (delays_of_dot u) now ->
    outcome (delays_of_dot u) (marks m now ks) st
    = (ys, match ks with
           | [] => st
           | _ => after_mark (delays_of_dot u) (keying_end m now ks)
           end).
Proof.
  intros Hu H. destruct (delays_of_dot_values u ltac:(lia)) as [D2 D3].
  induction H as [|y [E D] ys ks (T1 & T2 & T3 & T4) _ IH];
    intros Hm now st Hnow Hst; [reflexivity|].
  cbn [fst snd] in T1, T2, T3, T4.
  apply Forall_cons_iff in Hm as [Hy Hm].
  cbn [marks keying_end].
  set (t := run_tics (S E) now).
  assert (Rt : 0 <= t < 65536) by (apply run_tics_range; exact Hnow).
  rewrite !outcome_app.
  assert (I : outcome (delays_of_dot u) (idle now E) st = ([], st)).
  { destruct Hst as [Hw| ->].
    - destruct st as [x tmo]. cbn in Hw. subst x. apply idle_INTERWORD.
    - rewrite idle_INTERELEMENT_now by (try assumption; lia).
      destruct (Z.ltb_spec (Z.of_nat E) (delay_2u (delays_of_dot u))); [reflexivity|lia]. }
  rewrite I. cbn [fst snd app].
  rewrite mark_outcome;
    [|lia|exact Rt|pose proof (DEBOUNCE_TIME_value m); lia
     |destruct Hst as [Hw| ->]; [now rewrite Hw|reflexivity]].
  cbn [fst snd].
  fold (press_end m t D).
  fold (after_mark (delays_of_dot u) (press_end m t D)).
  rewrite (IH Hm (press_end m t D) _ (press_end_range m t D Rt) (or_intror eq_refl)).
  cbn [fst snd app]. f_equal.
  - f_equal. rewrite D2.
    destruct y; try discriminate Hy.
    + destruct (Z.leb_spec (D + DEBOUNCE_TIME m) (2 * u)); [reflexivity|].
      assert (D + DEBOUNCE_TIME m <= 2 * u) by (apply T4; discriminate). lia.
    + destruct (Z.leb_spec (D + DEBOUNCE_TIME m) (2 * u)); [|reflexivity].
      specialize (T3 eq_refl). lia.
  - now destruct ks.
Qed.

(** The characters of a pass are those [decode] returns for its symbols. *)
Lemma main_chars (m : mcu) (d : delays) (rs : list Main.reading) :
  forall s : Main.t,
    map Main.c (fst (Main.run m d rs s))
    = fst (Decoder.run (map Main.sym (fst (Main.run m d rs s))) (Main.decoder s)).
Proof.
  induction rs as [|r rs IH]; intros s; [reflexivity|].
  cbn [Main.run]. unfold Main.loop_body.
  destruct (EdgeDetector.get_edge _ _ _ _) as [e es].
  destruct (tokenize _ _ _ _) as [y ts].
  destruct (decode y (Main.decoder s)) as [ch ds] eqn:Dc.
  match goal with
  | |- context [Main.run m d rs ?s1] =>
      specialize (IH s1); destruct (Main.run m d rs s1) as [ps s2]
  end.
  cbn [fst snd map Main.c Main.sym Decoder.run Main.decoder] in *.
  rewrite Dc. destruct (Decoder.run (map Main.sym ps) ds) as [cs d2].
  cbn [fst] in *. now rewrite IH.
Qed.

(** [NO_SYMBOL] passes through the decoder without a trace. *)
Lemma decoder_skips_no_symbol (ys : list symbol_t) :
  forall s : Decoder.t,
    filter (fun ch => negb (ch =? 0)) (fst (Decoder.run ys s))
    = filter (fun ch => negb (ch =? 0)) (fst (Decoder.run (emitted ys) s)).
Proof.
  induction ys as [|y ys IH]; intros s; [reflexivity|].
  cbn [Decoder.run emitted filter].
  destruct y; cbn [symbol_eqb negb decode Decoder.run];
    match goal with
    | |- context [Decoder.run ys ?s1] =>
        specialize (IH s1); unfold emitted in IH;
        destruct (Decoder.run ys s1) as [cs s2];
        destruct (Decoder.run (filter _ ys) s1) as [cs' s2']
    end; cbn [fst filter] in *; rewrite IH; reflexivity.
Qed.

Lemma keyed_marks (s : String.string) :
  Forall (fun y => Main.is_mark y = true) (keyed s).
Proof.
  induction s as [|p s IH]; cbn [keyed]; constructor; [|exact IH].
  now destruct (Ascii.eqb p "-").
Qed.

Lemma sent_zeros (n : nat) (l : list Z) :
  filter (fun ch => negb (ch =? 0)) (repeat 0 n ++ l)
  = filter (fun ch => negb (ch =? 0)) l.
Proof. induction n as [|n IH]; [reflexivity|exact IH]. Qed.

(** X15: a character of the table keyed on a resting decoder, each press
    timed for its dot or dash ([D + DEBOUNCE_TIME <= 2u] for a dot, more for
    a dash), each pause between the end of one debounce and the next press
    shorter than [2u], and the key then left open for [N] polls with
    [2u <= N]: the main loop hands the character of the table entry to
    [uart_putchar], followed by a space if [5u <= N], and nothing else. *)
Theorem keyed_character_is_sent :
  forall (m : mcu) (u now : Z) (i N : nat) (s : String.string) (ks : list (nat * Z)),
    1 <= u <= 10922 -> 0 <= now < 65536 ->
    (i < 59)%nat -> nth i morse_code 0 <> 0 ->
    translate s 0 1 = Some (nth i morse_code 0) ->
    Forall2 (timed m u) (keyed s) ks ->
    2 * u <= Z.of_nat N ->
    let polls := keying m now ks ++ steady false (keying_end m now ks) N in
    sent (fst (Main.run m (delays_of_dot u) (map Main.read polls) Main.init))
    = if Z.of_nat N <? 5 * u
      then [table_char (Z.of_nat i)]
      else [table_char (Z.of_nat i); chr " "].
Proof.
  intros m u now i N s ks Hu Hnow Hi Hn Ht Hk HN polls.
  destruct (delays_of_dot_values u ltac:(lia)) as [D2 D3].
  destruct (entry_ok_spec i Hi Hn) as (R & C & _).
  assert (Hks : Forall (fun k => 1 <= snd k) ks).
  { clear - Hk. induction Hk as [|y k ys ks (_ & T & _) _ IH]; constructor; assumption. }
  assert (Hne : ks <> []).
  { intros ->. inversion Hk as [E|]. destruct s; [|discriminate E].
    change (translate String.EmptyString 0 1) with (Some 0) in Ht.
    injection Ht as Ht. apply Hn. symmetry. exact Ht. }
  assert (Hc : table_char (Z.of_nat i) <> 0)
    by (unfold table_char; destruct (Z.of_nat i =? 0); vm_compute chr; lia).
  unfold sent. rewrite main_chars.
  destruct (main_run_read m (delays_of_dot u) polls Main.init) as (S1 & _ & _).
  cbn zeta in S1. rewrite S1. clear S1.
  change (Main.edge_detector Main.init) with EdgeDetector.init.
  change (Main.tokenizer Main.init) with Tokenizer.init.
  change (Main.decoder Main.init) with Decoder.init.
  subst polls.
  destruct (keying_edges m ks Hks now EdgeDetector.init Hnow eq_refl) as [K1 K2].
  rewrite edge_run_app, map_app.
  rewrite (steady_UP m _ N K2). cbn [fst].
  rewrite combine_app by (now rewrite edge_run_length, length_map).
  rewrite K1, idle_steady.
  rewrite decoder_skips_no_symbol.
  pose proof (outcome_app (delays_of_dot u) (marks m now ks)
                (idle (keying_end m now ks) N) Tokenizer.init) as O.
  rewrite (marks_outcome m u (keyed s) ks Hu Hk (keyed_marks s) now Tokenizer.init
             Hnow (or_introl eq_refl)) in O.
  cbn [fst snd] in O.
  replace (match ks with
           | [] => Tokenizer.init
           | _ => after_mark (delays_of_dot u) (keying_end m now ks)
           end) with (after_mark (delays_of_dot u) (keying_end m now ks)) in O
    by (destruct ks; [contradiction|reflexivity]).
  rewrite idle_INTERELEMENT_now in O
    by (try apply keying_end_range; try assumption; lia).
  destruct (Z.ltb_spec (Z.of_nat N) (delay_2u (delays_of_dot u))); [lia|].
  pose proof (f_equal fst O) as O1. unfold outcome in O1. cbn [fst] in O1.
  rewrite O1. clear O O1.
  destruct (translate_decode s 0 1 _ Ht) as [bm T].
  change (Decoder.mk (uint16 0) (uint16 1)) with Decoder.init in T.
  rewrite D2, D3.
  replace (2 * u + 3 * u) with (5 * u) by lia.
  destruct (Z.ltb_spec (Z.of_nat N) (5 * u));
    cbn [fst]; rewrite decoder_run_app, T;
    cbn [fst snd Decoder.run decode code];
    rewrite uint16_small by lia; rewrite C, sent_zeros; cbn [filter];
    destruct (Z.eqb_spec (table_char (Z.of_nat i)) 0); try contradiction;
    reflexivity.
Qed.

(** The letter A, [.-], at 18 wpm on the ATtiny13A: a press of 500 tics,
    a pause of 300, a press of 1500 tics, and 1300 polls of silence. *)
Lemma keyed_character_is_sent_witness :
  sent (fst (Main.run ATtiny13A (delays_of_dot 640)
               (map Main.read
                    (keying ATtiny13A 100 [(0%nat, 500); (300%nat, 1500)]
                       ++ steady false
                            (keying_end ATtiny13A 100 [(0%nat, 500); (300%nat, 1500)])
                            1300))
               Main.init))
  = [chr "A"].
Proof.
  apply (keyed_character_is_sent ATtiny13A 640 100 33 1300 ".-"
           [(0%nat, 500); (300%nat, 1500)]); try lia.
  - vm_compute. discriminate.
  - reflexivity.
  - constructor; [|constructor; [|constructor]].
    + split; [vm_compute; reflexivity|]. split; [cbn; lia|]. split.
      * intros E. discriminate E.
      * intros _. vm_compute. intros E. discriminate E.
    + split; [vm_compute; reflexivity|]. split; [cbn; lia|]. split.
      * intros _. vm_compute. reflexivity.
      * intros E. now elim E.
Defined.

(** X17: the decoder agrees with the table generator on every string the
    generator accepts, in the table or not: after the dots and dashes of the
    string, [END_OF_CHAR] makes [decode] return [code_to_char] of the
    generator's code number and reset the accumulator. *)
Theorem decode_matches_generator :
  forall (s : String.string) (n : Z),
    translate s 0 1 = Some n ->
    Decoder.run (keyed s ++ [END_OF_CHAR]) Decoder.init
    = (repeat 0 (length (keyed s)) ++ [code_to_char n], Decoder.init).
Proof.
  intros s n H.
  pose proof (translate_range s n H) as R.
  destruct (translate_decode s 0 1 _ H) as [bm T].
  change (Decoder.mk (uint16 0) (uint16 1)) with Decoder.init in T.
  rewrite decoder_run_app, T. cbn [fst snd Decoder.run decode code].
  now rewrite uint16_small by lia.
Qed.

(** Six dots are in no table entry: the invalid marker. *)
Lemma decode_matches_generator_witness :
  Decoder.run (keyed "......" ++ [END_OF_CHAR]) Decoder.init
  = ([0; 0; 0; 0; 0; 0; chr "#"], Decoder.init).
Proof.
  apply (decode_matches_generator "......" 63 eq_refl).
Defined.
